(** * notion-guardian: export driver and archive normaliser

    A shallow embedding of [src/index.ts] (the axios/adm-zip script that
    starts at the [dotenv] import): the polling loop and the download of
    [exportFromNotion], the archive flattening of [extractZip], and the
    sequencing done by [run].

    JavaScript numbers are modelled by [Z]: the two counters of the script
    stay far below 2^53, where the arithmetic of binary64 numbers is exact,
    and the one number that grows, the argument of [sleep], is rounded as a
    binary64 number is.  Strings are modelled by [string], a directory by a
    finite map from names to nodes, file contents by byte lists. *)

From Stdlib Require Import Ascii.
From stdpp Require Import base numbers option list strings pretty gmap fin_maps.

#[local] Arguments String.append !_ _ / : simpl nomatch.
#[local] Set Warnings "-register-all".

Open Scope Z_scope.

(** ** Values exchanged with the remote service *)

(** [type NotionTask]; the fields the script guards with a truthiness test
    ([task.status], [task.status.exportURL], [task.status.pagesExported],
    [task.error]) are optional at run time. *)
Record TaskStatus := {
  pagesExported : option Z;
  exportURL : option string
}.

Record NotionTask := {
  id : string;
  state : string;
  status : option TaskStatus;
  error : option string
}.

(** What the script throws, and what a rejected request carries. *)
Inductive exn :=
| AxiosError (responseStatus : option Z)   (* axios.isAxiosError(e); e.response?.status *)
| Error (message : string)                 (* new Error(message) *)
| TypeError                                (* member access on undefined *)
| SystemError (code : string).             (* a failed file-system call: ENOENT, ... *)

(** Resolved value of [client.post("getTasks", ...)]:
    [data.results] and [headers["set-cookie"]]. *)
Record TasksResponse := {
  results : list NotionTask;
  set_cookie : option (list string)
}.

Inductive reply :=
| Resolves (r : TasksResponse)
| Rejects (e : exn).

(** Lines written to the console by the polling loop. *)
Inductive log_line :=
| LogTaskNotFound (attempt ceiling : Z)      (* "[Attempt a/m] Task not found, retrying..." *)
| LogTaskState (attempt ceiling : Z) (s : string)  (* "[Attempt a/m] Task state: s" *)
| LogProgress (pages : Z)                    (* "  Progress: n pages exported" *)
| LogTaskObject (t : NotionTask)             (* console.error("Task object:", ...) *)
| LogExportFinished (pages : option Z)       (* "Export finished! Total pages: n|unknown" *)
| LogRateLimited (backoff : Z).              (* "Rate limited (429), ... (2**r s)..." *)

(** ** JavaScript helpers *)

(** Truthiness of an optional string: [undefined] and [""] are falsy. *)
Definition truthy_string (o : option string) : bool :=
  match o with
  | Some s => negb (String.eqb s "")
  | None => false
  end.

(** Truthiness of an optional number: [undefined] and [0] are falsy. *)
Definition truthy_number (o : option Z) : bool :=
  match o with
  | Some n => negb (n =? 0)
  | None => false
  end.

(** [hay.includes(needle)] *)
Fixpoint includes (needle hay : string) : bool :=
  String.prefix needle hay ||
  match hay with
  | EmptyString => false
  | String _ hay' => includes needle hay'
  end.

(** [hay.startsWith(p)] *)
Definition startsWith (p hay : string) : bool := String.prefix p hay.

(** [xs.find(p)] *)
Fixpoint find {A} (p : A -> bool) (xs : list A) : option A :=
  match xs with
  | [] => None
  | x :: xs' => if p x then Some x else find p xs'
  end.

(** The binary64 number nearest to the integer [n] (53 significant bits,
    ties to the even significand), for [0 <= n < 2^1024]. *)
Definition binary64 (n : Z) : Z :=
  let e := Z.log2 n - 52 in
  if e <=? 0 then n
  else
    let q := n / 2 ^ e in
    let r := n mod 2 ^ e in
    let half := 2 ^ (e - 1) in
    if (r <? half) || ((r =? half) && Z.even q) then q * 2 ^ e else (q + 1) * 2 ^ e.

(** ** The polling loop of [exportFromNotion] *)

Definition POLL_INTERVAL : Z := 3.
Definition MAX_POLL_ATTEMPTS : Z := 100.

(** The mutable locals of the loop, with the console and the sum of the
    numbers of seconds handed to [sleep] as ghost fields. *)
Record poll_state := {
  pollAttempts : Z;
  rateLimitRetries : Z;
  console : list log_line;
  slept : Z
}.

Definition initial_state : poll_state :=
  {| pollAttempts := 0; rateLimitRetries := 0; console := []; slept := 0 |}.

Definition log (l : log_line) (st : poll_state) : poll_state :=
  {| pollAttempts := pollAttempts st; rateLimitRetries := rateLimitRetries st;
     console := console st ++ [l]; slept := slept st |}.

Definition set_pollAttempts (n : Z) (st : poll_state) : poll_state :=
  {| pollAttempts := n; rateLimitRetries := rateLimitRetries st;
     console := console st; slept := slept st |}.

Definition set_rateLimitRetries (n : Z) (st : poll_state) : poll_state :=
  {| pollAttempts := pollAttempts st; rateLimitRetries := n;
     console := console st; slept := slept st |}.

(** [await sleep(seconds)] *)
Definition sleep (seconds : Z) (st : poll_state) : poll_state :=
  {| pollAttempts := pollAttempts st; rateLimitRetries := rateLimitRetries st;
     console := console st; slept := slept st + seconds |}.

(** How one pass through the loop body ends. *)
Inductive control :=
| Continue                                           (* falls through or [continue] *)
| Break (exportURL : string) (fileTokenCookie : string)
| Throw (e : exn).

(** The statements of the [try] block once the request has resolved. *)
Definition try_block (taskId : string) (r : TasksResponse) (st : poll_state)
  : poll_state * control :=
  match find (fun t => String.eqb (id t) taskId) (results r) with
  | None =>
      (log (LogTaskNotFound (pollAttempts st) MAX_POLL_ATTEMPTS) st, Continue)
  | Some task =>
      let st := log (LogTaskState (pollAttempts st) MAX_POLL_ATTEMPTS (state task)) st in
      let st :=
        match status task with
        | Some s => if truthy_number (pagesExported s)
                    then log (LogProgress (default 0 (pagesExported s))) st
                    else st
        | None => st
        end in
      if truthy_string (error task) then
        (st, Throw (Error ("Export failed with reason: " +:+ default "" (error task))))
      else if String.eqb (state task) "success" then
        match status task with
        | Some s =>
            if truthy_string (exportURL s) then
              match set_cookie r with
              | None => (st, Throw TypeError)
              | Some cookies =>
                  match find (includes "file_token=") cookies with
                  | Some cookie =>
                      if truthy_string (Some cookie) then
                        (log (LogExportFinished
                                (if truthy_number (pagesExported s)
                                 then pagesExported s else None)) st,
                         Break (default "" (exportURL s)) cookie)
                      else
                        (st, Throw (Error "Task finished but file_token cookie not found."))
                  | None =>
                      (st, Throw (Error "Task finished but file_token cookie not found."))
                  end
              end
            else
              (log (LogTaskObject task) st,
               Throw (Error "Task succeeded but exportURL is missing. See task object above."))
        | None =>
            (log (LogTaskObject task) st,
             Throw (Error "Task succeeded but exportURL is missing. See task object above."))
        end
      else
        (set_rateLimitRetries 0 st, Continue)
  end.

(** The [catch] clause. *)
Definition catch_block (e : exn) (st : poll_state) : poll_state * control :=
  match e with
  | AxiosError (Some 429) =>
      let st := log (LogRateLimited (2 ^ rateLimitRetries st)) st in
      let st := set_rateLimitRetries (rateLimitRetries st + 1) st in
      let st := set_pollAttempts (pollAttempts st - 1) st in
      (st, Continue)
  | _ => (st, Throw e)
  end.

(** One pass through the body of the [while] loop, given how the
    [getTasks] request of this pass settles. *)
Definition iteration (taskId : string) (rp : reply) (st : poll_state)
  : poll_state * control :=
  let st := set_pollAttempts (pollAttempts st + 1) st in
  let st := sleep (binary64 (POLL_INTERVAL + 2 ^ rateLimitRetries st)) st in
  match rp with
  | Rejects e => catch_block e st
  | Resolves r =>
      match try_block taskId r st with
      | (st', Throw e) => catch_block e st'
      | other => other
      end
  end.

(** How the polling phase ends: the script goes on to the download with
    the current values of [exportURL] and [fileTokenCookie], or it throws.
    [Awaiting] is the loop still waiting for a reply the environment has
    not produced. *)
Inductive poll_outcome :=
| Proceeds (exportURL : option string) (fileTokenCookie : option string)
| PollThrew (e : exn)
| Awaiting.

Definition timeout_message : string :=
  "Export task timed out after " +:+ pretty MAX_POLL_ATTEMPTS +:+ " attempts ("
  +:+ pretty (MAX_POLL_ATTEMPTS * POLL_INTERVAL / 60) +:+ " minutes).".

(** The check that follows the loop. *)
Definition timeout_check (st : poll_state) (exportURL fileTokenCookie : option string)
  : poll_outcome :=
  if MAX_POLL_ATTEMPTS <=? pollAttempts st then PollThrew (Error timeout_message)
  else Proceeds exportURL fileTokenCookie.

(** The [while] loop followed by the timeout check; [replies] lists how
    the successive [getTasks] requests settle. *)
Fixpoint poll_loop (taskId : string) (replies : list reply) (st : poll_state)
  : poll_state * poll_outcome :=
  if pollAttempts st <? MAX_POLL_ATTEMPTS then
    match replies with
    | [] => (st, Awaiting)
    | rp :: replies' =>
        match iteration taskId rp st with
        | (st', Continue) => poll_loop taskId replies' st'
        | (st', Break url cookie) => (st', timeout_check st' (Some url) (Some cookie))
        | (st', Throw e) => (st', PollThrew e)
        end
    end
  else (st, timeout_check st None None).

(** ** The download of [exportFromNotion] *)

Abbreviation bytes := (list Byte.byte).

(** What happens on the two streams while [response.data] is piped into
    [createWriteStream(destination)]. *)
Inductive stream_event :=
| Data (chunk : bytes)        (* the response stream delivers a chunk *)
| End                         (* the response stream emits 'end': the body is complete *)
| SourceError (e : exn)       (* the response stream emits 'error': the connection
                                 breaks, or closes before the body is complete *)
| OpenError (e : exn)         (* the write stream fails to open the file *)
| WriteError (e : exn).       (* the write stream fails once the file is open *)

(** Resolved value of the GET request: [headers["content-length"]] and the
    events of the body stream. *)
Record DownloadResponse := {
  content_length : Z;
  body : list stream_event
}.

(** How the promise awaited at the end of [exportFromNotion] settles. *)
Inductive settlement :=
| Resolved                    (* stream.on("close", resolve) *)
| Rejected (e : exn)          (* stream.on("error", reject) *)
| Unsettled.                  (* the write stream neither closes nor fails *)

(** [response.data.pipe(writer)] followed by the awaited promise, with the
    content of the file ([None]: the file could not be opened).  Chunks are
    appended to the file; 'end' ends the writer, whose 'close' resolves; an
    error of the writer rejects.  An error of the response stream reaches
    the listener the HTTP client has put on that stream and nothing else:
    [pipe] does not pass it on to the writer, which is left open, and the
    script listens to the writer only. *)
Fixpoint pipe (events : list stream_event) (written : bytes) : option bytes * settlement :=
  match events with
  | [] => (Some written, Unsettled)
  | Data chunk :: events' => pipe events' (written ++ chunk)
  | End :: _ => (Some written, Resolved)
  | SourceError e :: _ => (Some written, Unsettled)
  | OpenError e :: _ => (None, Rejected e)
  | WriteError e :: _ => (Some written, Rejected e)
  end.

(** The remote service as the script sees it. *)
Record Network := {
  enqueueTask : exn + string;                       (* rejection or [data.taskId] *)
  getTasks : list reply;                            (* successive status replies *)
  getExport : option string -> option string -> exn + DownloadResponse
                                                    (* GET url with Cookie header *)
}.

(** How an awaited call of the script ends. *)
Inductive completion :=
| Completed
| Failed (e : exn)            (* the promise rejects *)
| Pending.                    (* the promise is never settled *)

(** [exportFromNotion(destination, format)]: the final state of the polling
    loop, the content the call gives the file at [destination] ([None]: the
    call has not opened the file) and how the call ends. *)
Definition exportFromNotion (net : Network) : poll_state * option bytes * completion :=
  match enqueueTask net with
  | inl e => (initial_state, None, Failed e)
  | inr taskId =>
      match poll_loop taskId (getTasks net) initial_state with
      | (st, Awaiting) => (st, None, Pending)
      | (st, PollThrew e) => (st, None, Failed e)
      | (st, Proceeds url cookie) =>
          match getExport net url cookie with
          | inl e => (st, None, Failed e)
          | inr response =>
              match pipe (body response) [] with
              | (file, Resolved) => (st, file, Completed)
              | (file, Rejected e) => (st, file, Failed e)
              | (file, Unsettled) => (st, file, Pending)
              end
          end
      end
  end.

(** ** Regular expressions *)

Inductive regex :=
| Void                         (* matches nothing *)
| Eps                          (* the empty string *)
| Chr (c : ascii)              (* a literal character *)
| Digit                        (* \d *)
| AnyChar                      (* any character *)
| Seq (r1 r2 : regex)
| Alt (r1 r2 : regex)
| Star (r : regex).

(** [r+] *)
Definition Plus (r : regex) : regex := Seq r (Star r).

(** A literal string. *)
Fixpoint Lit (s : string) : regex :=
  match s with
  | EmptyString => Eps
  | String c s' => Seq (Chr c) (Lit s')
  end.

Definition is_digit (c : ascii) : bool :=
  let n := nat_of_ascii c in (48 <=? n)%nat && (n <=? 57)%nat.

Inductive matches : regex -> string -> Prop :=
| m_eps : matches Eps ""
| m_chr c : matches (Chr c) (String c "")
| m_digit c : is_digit c = true -> matches Digit (String c "")
| m_any c : matches AnyChar (String c "")
| m_seq r1 r2 s1 s2 : matches r1 s1 -> matches r2 s2 -> matches (Seq r1 r2) (s1 +:+ s2)
| m_alt_l r1 r2 s : matches r1 s -> matches (Alt r1 r2) s
| m_alt_r r1 r2 s : matches r2 s -> matches (Alt r1 r2) s
| m_star_nil r : matches (Star r) ""
| m_star_cons r s1 s2 : matches r s1 -> matches (Star r) s2 -> matches (Star r) (s1 +:+ s2).

Fixpoint nullable (r : regex) : bool :=
  match r with
  | Void | Chr _ | Digit | AnyChar => false
  | Eps | Star _ => true
  | Seq r1 r2 => nullable r1 && nullable r2
  | Alt r1 r2 => nullable r1 || nullable r2
  end.

Fixpoint deriv (c : ascii) (r : regex) : regex :=
  match r with
  | Void | Eps => Void
  | Chr c' => if Ascii.eqb c c' then Eps else Void
  | Digit => if is_digit c then Eps else Void
  | AnyChar => Eps
  | Seq r1 r2 =>
      if nullable r1 then Alt (Seq (deriv c r1) r2) (deriv c r2)
      else Seq (deriv c r1) r2
  | Alt r1 r2 => Alt (deriv c r1) (deriv c r2)
  | Star r' => Seq (deriv c r') (Star r')
  end.

Fixpoint accepts (r : regex) (s : string) : bool :=
  match s with
  | EmptyString => nullable r
  | String c s' => accepts (deriv c r) s'
  end.

(** [s.match(/r/)] is truthy: some substring of [s] matches [r]. *)
Definition test (r : regex) (s : string) : bool :=
  accepts (Seq (Star AnyChar) (Seq r (Star AnyChar))) s.

Definition part_regex : regex := Seq (Lit "Part-") (Seq (Plus Digit) (Lit ".zip")).

(** ** The file system *)

(** A directory maps names to nodes; the destination directory of
    [extractZip] is represented by its content and paths are relative to it. *)
Inductive node :=
| File (data : bytes)
| Dir (children : gmap string node).

Abbreviation dir := (gmap string node).

(** Splitting a name at the characters that are separators. *)
Fixpoint split_on (sep : ascii -> bool) (cur s : string) : list string :=
  match s with
  | EmptyString => [cur]
  | String c s' =>
      if sep c then cur :: split_on sep "" s'
      else split_on sep (cur +:+ String c "") s'
  end.

Definition is_slash (c : ascii) : bool := Ascii.eqb c "/".

Definition is_slash_or_backslash (c : ascii) : bool :=
  Ascii.eqb c "/" || Ascii.eqb c "\".

(** A component that [path.normalize] drops. *)
Definition is_blank (c : string) : bool := String.eqb c "" || String.eqb c ".".

(** [path.join(directory, name)] relative to [directory], on the
    components of [name]: empty and "." components are dropped and ".."
    undoes the component before it; [seen] holds the components kept so far,
    the last one first.  The result is [None] when a ".." has nothing to
    undo: the path then leaves [directory]. *)
Fixpoint normalize (seen components : list string) : option (list string) :=
  match components with
  | [] => Some (rev seen)
  | c :: components' =>
      if is_blank c then normalize seen components'
      else if String.eqb c ".." then
        match seen with
        | _ :: seen' => normalize seen' components'
        | [] => None
        end
      else normalize (c :: seen) components'
  end.

(** The same for a path that starts at the root, where ".." stays. *)
Fixpoint normalize_rooted (seen components : list string) : list string :=
  match components with
  | [] => rev seen
  | c :: components' =>
      if is_blank c then normalize_rooted seen components'
      else if String.eqb c ".." then normalize_rooted (tail seen) components'
      else normalize_rooted (c :: seen) components'
  end.

(** [join(destination, name)] of the script, relative to [destination]. *)
Definition join (name : string) : option (list string) :=
  normalize [] (split_on is_slash "" name).

(** Where adm-zip extracts the entry [name], relative to the target
    directory: its [canonical] takes backslashes for slashes and
    normalises the name as a path that starts at the root, so that the
    entry stays inside the target. *)
Definition canonical (name : string) : list string :=
  normalize_rooted [] (split_on is_slash_or_backslash "" name).

Fixpoint lookup_node (p : list string) (d : dir) : option node :=
  match p with
  | [] => Some (Dir d)
  | x :: p' =>
      match d !! x with
      | None => None
      | Some n =>
          match p' with
          | [] => Some n
          | _ => match n with Dir c => lookup_node p' c | File _ => None end
          end
      end
  end.

(** [fs.readdir(destination)] *)
Definition readdir (d : dir) : list string := (map_to_list d).*1.

(** [fs.unlink(join(destination, p))] *)
Fixpoint unlink (p : list string) (d : dir) : exn + dir :=
  match p with
  | [] => inl (SystemError "EISDIR")
  | x :: p' =>
      match d !! x with
      | None => inl (SystemError "ENOENT")
      | Some (File _) =>
          match p' with
          | [] => inr (delete x d)
          | _ => inl (SystemError "ENOTDIR")
          end
      | Some (Dir c) =>
          match p' with
          | [] => inl (SystemError "EISDIR")
          | _ => match unlink p' c with
                 | inl e => inl e
                 | inr c' => inr (<[x := Dir c']> d)
                 end
          end
      end
  end.

(** [fs.rename(join(destination, folder, child), join(destination, child))]
    with the POSIX rules for an existing target. *)
Definition rename_up (folder child : string) (d : dir) : exn + dir :=
  match d !! folder with
  | Some (Dir ch) =>
      match ch !! child with
      | None => inl (SystemError "ENOENT")
      | Some n =>
          let moved := <[child := n]> (<[folder := Dir (delete child ch)]> d) in
          match d !! child, n with
          | None, _ => inr moved
          | Some (File _), File _ => inr moved
          | Some (File _), Dir _ => inl (SystemError "ENOTDIR")
          | Some (Dir _), File _ => inl (SystemError "EISDIR")
          | Some (Dir old), Dir _ =>
              if decide (old = ∅) then inr moved else inl (SystemError "ENOTEMPTY")
          end
      end
  | Some (File _) => inl (SystemError "ENOTDIR")
  | None => inl (SystemError "ENOENT")
  end.

(** [fs.rmdir(join(destination, folder))] *)
Definition rmdir (folder : string) (d : dir) : exn + dir :=
  match d !! folder with
  | Some (Dir ch) =>
      if decide (ch = ∅) then inr (delete folder d) else inl (SystemError "ENOTEMPTY")
  | Some (File _) => inl (SystemError "ENOTDIR")
  | None => inl (SystemError "ENOENT")
  end.

(** ** adm-zip *)

Record ZipEntry := {
  entryName : string;
  getData : bytes
}.

(** [entry.isDirectory]: the name ends with a slash or a backslash. *)
Fixpoint isDirectory (name : string) : bool :=
  match name with
  | EmptyString => false
  | String c EmptyString => is_slash_or_backslash c
  | String _ name' => isDirectory name'
  end.

Definition FILE_IN_THE_WAY : exn := Error "ADM-ZIP: There is a file in the way".
Definition INVALID_FORMAT : exn :=
  Error "ADM-ZIP: Invalid or unsupported zip format. No END header found".
Definition INVALID_FILENAME : exn := Error "ADM-ZIP: Invalid filename".

(** adm-zip's [makeDir]: creates every missing component, and throws when
    a component is a file. *)
Fixpoint makeDir (p : list string) (d : dir) : exn + dir :=
  match p with
  | [] => inr d
  | x :: p' =>
      match d !! x with
      | Some (File _) => inl FILE_IN_THE_WAY
      | Some (Dir c) =>
          match makeDir p' c with
          | inl e => inl e
          | inr c' => inr (<[x := Dir c']> d)
          end
      | None =>
          match makeDir p' ∅ with
          | inl e => inl e
          | inr c' => inr (<[x := Dir c']> d)
          end
      end
  end.

(** adm-zip's [writeFileTo] with [overwrite = true]: an existing file is
    replaced and a directory at the target is left alone.  A missing
    parent directory is made with [makeDir], which throws when a component
    is a file; when the parent itself is a file, opening the target fails
    with ENOTDIR. *)
Fixpoint writeFileTo (p : list string) (data : bytes) (d : dir) : exn + dir :=
  match p with
  | [] => inr d
  | x :: p' =>
      match p' with
      | [] =>
          match d !! x with
          | Some (Dir _) => inr d
          | _ => inr (<[x := File data]> d)
          end
      | _ :: p'' =>
          match d !! x with
          | Some (File _) =>
              inl (match p'' with [] => SystemError "ENOTDIR" | _ => FILE_IN_THE_WAY end)
          | Some (Dir c) =>
              match writeFileTo p' data c with
              | inl e => inl e
              | inr c' => inr (<[x := Dir c']> d)
              end
          | None =>
              match writeFileTo p' data ∅ with
              | inl e => inl e
              | inr c' => inr (<[x := Dir c']> d)
              end
          end
      end
  end.

(** What [extractAllTo] does with one entry. *)
Definition extract_entry (e : ZipEntry) (d : dir) : exn + dir :=
  if isDirectory (entryName e) then makeDir (canonical (entryName e)) d
  else writeFileTo (canonical (entryName e)) (getData e) d.

(** ** Unlinks in flight *)

(** [fs.unlink] is carried out by the thread pool while the main thread
    goes on: a call that has been issued takes effect at some later point.
    An unlink in flight is its path with the number of file-system
    operations of the main thread it lets pass before it takes effect. *)
Record fs_state := {
  tree : dir;                              (* the destination *)
  unlinks : list (nat * list string);      (* the unlinks in flight, as issued *)
  failed_unlink : option exn               (* the error of the first unlink that failed *)
}.

(** A destination with nothing in flight. *)
Definition quiet (d : dir) : fs_state :=
  {| tree := d; unlinks := []; failed_unlink := None |}.

Definition first_error (a b : option exn) : option exn :=
  match a with Some _ => a | None => b end.

(** The unlinks that are due take effect, in the order they were issued;
    the others are one operation closer. *)
Fixpoint settle_due (inflight : list (nat * list string)) (d : dir) (err : option exn)
  : fs_state :=
  match inflight with
  | [] => {| tree := d; unlinks := []; failed_unlink := err |}
  | (O, p) :: inflight' =>
      match unlink p d with
      | inr d' => settle_due inflight' d' err
      | inl e => settle_due inflight' d (first_error err (Some e))
      end
  | (S k, p) :: inflight' =>
      let s := settle_due inflight' d err in
      {| tree := tree s; unlinks := (k, p) :: unlinks s; failed_unlink := failed_unlink s |}
  end.

(** Every unlink in flight takes effect. *)
Fixpoint settle_all (inflight : list (nat * list string)) (d : dir) (err : option exn)
  : dir * option exn :=
  match inflight with
  | [] => (d, err)
  | (_, p) :: inflight' =>
      match unlink p d with
      | inr d' => settle_all inflight' d' err
      | inl e => settle_all inflight' d (first_error err (Some e))
      end
  end.

(** [zip.extractAllTo(destination, true)]: the entries in order, each after
    the unlinks that are due; the state as it is when an entry throws, with
    the exception. *)
Fixpoint extractAllTo (entries : list ZipEntry) (s : fs_state) : fs_state * option exn :=
  match entries with
  | [] => (s, None)
  | e :: entries' =>
      let s := settle_due (unlinks s) (tree s) (failed_unlink s) in
      match extract_entry e (tree s) with
      | inl err => (s, Some err)
      | inr d' =>
          extractAllTo entries'
            {| tree := d'; unlinks := unlinks s; failed_unlink := failed_unlink s |}
      end
  end.

(** ** [extractZip] *)

(** Progress of the callback that flattens one export folder. *)
Inductive phase :=
| Reading                          (* [fs.readdir(folderPath)] is in flight *)
| Moving (pending : gset string)   (* renames in flight; none left: [fs.rmdir] in flight *)
| Removed.                         (* the callback has returned *)

Global Instance phase_eq_dec : EqDecision phase.
Proof. solve_decision. Defined.

(** Completion of one file-system call of the callback of [folder]: its
    [readdir], the rename of [child] if that rename is in flight, or its
    [rmdir].  Naming a call that is not in flight changes nothing. *)
Definition step_task (folder child : string) (d : dir) (tasks : gmap string phase)
  : exn + (dir * gmap string phase) :=
  match tasks !! folder with
  | None | Some Removed => inr (d, tasks)
  | Some Reading =>
      match d !! folder with
      | Some (Dir ch) => inr (d, <[folder := Moving (dom ch)]> tasks)
      | Some (File _) => inl (SystemError "ENOTDIR")
      | None => inl (SystemError "ENOENT")
      end
  | Some (Moving pending) =>
      if decide (pending = ∅) then
        match rmdir folder d with
        | inl e => inl e
        | inr d' => inr (d', <[folder := Removed]> tasks)
        end
      else if decide (child ∈ pending) then
        match rename_up folder child d with
        | inl e => inl e
        | inr d' => inr (d', <[folder := Moving (pending ∖ {[child]})]> tasks)
        end
      else inr (d, tasks)
  end.

Definition all_removed (tasks : gmap string phase) : bool :=
  bool_decide (map_Forall (fun _ ph => ph = Removed) tasks).

(** [Promise.all(exportFolders.map(...))]: the file-system calls of the
    callbacks complete one at a time, in the order [schedule] gives; the
    promise resolves once every callback has returned and rejects with the
    first call that fails. *)
Fixpoint run_tasks (schedule : list (string * string)) (d : dir) (tasks : gmap string phase)
  : dir * completion :=
  if all_removed tasks then (d, Completed)
  else
    match schedule with
    | [] => (d, Pending)
    | (folder, child) :: schedule' =>
        match step_task folder child d tasks with
        | inl e => (d, Failed e)
        | inr (d', tasks') => run_tasks schedule' d' tasks'
        end
    end.

Definition exportFolders (d : dir) : list string :=
  List.filter (startsWith "Export-") (readdir d).

(** One callback per export folder, each about to read its folder. *)
Definition start_tasks (d : dir) : gmap string phase :=
  list_to_map ((fun folder => (folder, Reading)) <$> exportFolders d).

Definition is_part_name (name : string) : bool := test part_regex name.

(** The two paths [run] works on: [join(cwd, "workspace")] and
    [join(cwd, "workspace.zip")]. *)
Record FileSystem := {
  workspaceDir : option node;
  workspaceZip : option bytes
}.

Section AdmZip.

(** [new AdmZip(file).getEntries()] on the content of a file; [None] when
    the constructor throws on data that is no zip archive. *)
Variable readZip : bytes -> option (list ZipEntry).

(** The callback run for one "Part-*.zip" name, up to its [await]: the
    part is opened and extracted, and its unlink is issued, to take effect
    [delay] operations later.  A name that leaves the destination is the
    name of a file the model does not hold: the callback is taken to find
    no such file. *)
Definition extract_part (partFile : string) (delay : nat) (s : fs_state)
  : fs_state * option exn :=
  let s := settle_due (unlinks s) (tree s) (failed_unlink s) in
  match join partFile with
  | None => (s, Some INVALID_FILENAME)
  | Some p =>
      match lookup_node p (tree s) with
      | None => (s, Some INVALID_FILENAME)
      | Some (Dir _) => (s, Some (SystemError "EISDIR"))
      | Some (File data) =>
          match readZip data with
          | None => (s, Some INVALID_FORMAT)
          | Some entries =>
              match extractAllTo entries s with
              | (s', Some e) => (s', Some e)
              | (s', None) =>
                  ({| tree := tree s'; unlinks := unlinks s' ++ [(delay, p)];
                      failed_unlink := failed_unlink s' |}, None)
              end
          end
      end
  end.

(** [partFiles.map(async ...)]: the callbacks run one after the other, each
    up to its [await], also after one has thrown; [delays] gives the delay
    of the unlink of each part (none where the list ends).  The result
    carries the exception of the first callback that threw. *)
Fixpoint extract_parts (delays : list nat) (partFiles : list string) (s : fs_state)
  : fs_state * option exn :=
  match partFiles with
  | [] => (s, None)
  | partFile :: partFiles' =>
      let '(s', e) := extract_part partFile (hd O delays) s in
      let '(s'', e') := extract_parts (tl delays) partFiles' s' in
      (s'', first_error e e')
  end.

(** [await Promise.all(...)] on the callbacks of the parts.  When a
    callback has thrown, the promise rejects as soon as the main thread is
    free, with the unlinks that are not due still in flight; otherwise it
    waits for every unlink, and rejects if one has failed. *)
Definition await_parts (r : fs_state * option exn) : dir * option exn :=
  match r with
  | (s, Some e) => (tree (settle_due (unlinks s) (tree s) (failed_unlink s)), Some e)
  | (s, None) => settle_all (unlinks s) (tree s) (failed_unlink s)
  end.

(** The first half of [extractZip]: the archive, then its parts. *)
Definition unpack (delays : list nat) (archive : option bytes) (d : dir)
  : dir * option exn :=
  match archive with
  | None => (d, Some INVALID_FILENAME)
  | Some data =>
      match readZip data with
      | None => (d, Some INVALID_FORMAT)
      | Some entries =>
          match extractAllTo entries (quiet d) with
          | (s, Some e) => (tree s, Some e)
          | (s, None) =>
              let extractedFiles := map entryName entries in
              let partFiles := List.filter is_part_name extractedFiles in
              await_parts (extract_parts delays partFiles s)
          end
      end
  end.

(** [extractZip(filename, destination)], [archive] being the content of
    the file [filename] ([None]: no such file) and [d] the destination
    directory; [delays] and [schedule] say when the file-system calls the
    script has issued take effect. *)
Definition extractZip (delays : list nat) (schedule : list (string * string))
    (archive : option bytes) (d : dir) : dir * completion :=
  match unpack delays archive d with
  | (d2, Some e) => (d2, Failed e)
  | (d2, None) => run_tasks schedule d2 (start_tasks d2)
  end.

(** ** [run] *)

Definition run (net : Network) (delays : list nat) (schedule : list (string * string))
    (fs : FileSystem) : FileSystem * completion :=
  match exportFromNotion net with
  | (_, written, Completed) =>
      let zip := match written with Some b => Some b | None => workspaceZip fs end in
      (* fs.rm(workspaceDir, {recursive, force}); fs.mkdir(workspaceDir) *)
      match extractZip delays schedule zip ∅ with
      | (d, Completed) =>
          (* fs.unlink(workspaceZip) *)
          ({| workspaceDir := Some (Dir d); workspaceZip := None |}, Completed)
      | (d, c) => ({| workspaceDir := Some (Dir d); workspaceZip := zip |}, c)
      end
  | (_, written, c) =>
      ({| workspaceDir := workspaceDir fs;
          workspaceZip := match written with Some b => Some b | None => workspaceZip fs end |},
       c)
  end.

End AdmZip.

(** * Auxiliary definitions used in the statements *)

(** The record of the submitted task in a reply, as [tasks.find] sees it. *)
Definition finds (taskId : string) (r : TasksResponse) : option NotionTask :=
  find (fun t => String.eqb (id t) taskId) (results r).

Definition is_rate_limited (rp : reply) : bool :=
  match rp with
  | Rejects (AxiosError (Some 429)) => true
  | _ => false
  end.

(** A reply that leaves the job non-terminal: a rate limit, no record for
    the task, or a record without error whose state is not "success". *)
Definition non_terminal (taskId : string) (rp : reply) : bool :=
  match rp with
  | Rejects _ => is_rate_limited rp
  | Resolves r =>
      match finds taskId r with
      | None => true
      | Some task => negb (truthy_string (error task)) && negb (String.eqb (state task) "success")
      end
  end.

(** Replies that consume an attempt. *)
Definition attempts_used (replies : list reply) : Z :=
  Z.of_nat (length (List.filter (fun rp => negb (is_rate_limited rp)) replies)).

(** The state after the sleep and the console lines every found task
    produces. *)
Definition logged_state (task : NotionTask) (st : poll_state) : poll_state :=
  let st := set_pollAttempts (pollAttempts st + 1) st in
  let st := sleep (binary64 (POLL_INTERVAL + 2 ^ rateLimitRetries st)) st in
  let st := log (LogTaskState (pollAttempts st) MAX_POLL_ATTEMPTS (state task)) st in
  match status task with
  | Some s => if truthy_number (pagesExported s)
              then log (LogProgress (default 0 (pagesExported s))) st
              else st
  | None => st
  end.

(** Sample replies. *)
Definition in_progress : reply :=
  Resolves {| results := [ {| id := "T"; state := "in_progress";
                              status := Some {| pagesExported := Some 12; exportURL := None |};
                              error := None |} ];
              set_cookie := Some [] |}.

Definition succeeded : reply :=
  Resolves {| results := [ {| id := "T"; state := "success";
                              status := Some {| pagesExported := Some 40;
                                                exportURL := Some "https://files.example/export.zip" |};
                              error := None |} ];
              set_cookie := Some ["session=1"; "file_token=abc; Path=/"] |}.

Definition not_found : reply := Resolves {| results := []; set_cookie := None |}.

Definition rate_limited : reply := Rejects (AxiosError (Some 429)).

Definition failed_while_success : TasksResponse :=
  {| results := [ {| id := "T"; state := "success";
                     status := Some {| pagesExported := Some 40;
                                       exportURL := Some "https://files.example/export.zip" |};
                     error := Some "quota exceeded" |} ];
     set_cookie := Some ["file_token=abc"] |}.

(** A service whose export succeeds at the first poll and whose download
    declares 1000 bytes; the connection closes after 6 of them. *)
Definition truncated_download : Network :=
  {| enqueueTask := inr "T";
     getTasks := [succeeded];
     getExport := fun _ _ =>
       inr {| content_length := 1000;
              body := [Data (String.list_byte_of_string "PK-");
                       Data (String.list_byte_of_string "abc");
                       SourceError (Error "aborted")] |} |}.

(** The same download with a disk that fills up after 6 bytes. *)
Definition disk_full_download : Network :=
  {| enqueueTask := inr "T";
     getTasks := [succeeded];
     getExport := fun _ _ =>
       inr {| content_length := 1000;
              body := [Data (String.list_byte_of_string "PK-");
                       Data (String.list_byte_of_string "abc");
                       WriteError (SystemError "ENOSPC")] |} |}.

(** The same download into a file that cannot be opened. *)
Definition unwritable_download : Network :=
  {| enqueueTask := inr "T";
     getTasks := [succeeded];
     getExport := fun _ _ =>
       inr {| content_length := 1000;
              body := [Data (String.list_byte_of_string "PK-");
                       OpenError (SystemError "EACCES")] |} |}.


(** ** The outcome of flattening the export folders *)

(** The children of a top-level node when it is a directory. *)
Definition children_of (d : dir) (folder : string) : dir :=
  match d !! folder with
  | Some (Dir ch) => ch
  | _ => ∅
  end.

(** The names found inside the export folders of [d]. *)
Definition children_names (d : dir) : list string :=
  exportFolders d ≫= (fun folder => readdir (children_of d folder)).

(** No two moves of the flattening have the same target, and no target is
    a name already present at the top of the destination. *)
Definition no_collision (d : dir) : Prop :=
  NoDup (readdir d ++ children_names d).

Global Instance no_collision_dec d : Decision (no_collision d).
Proof. unfold no_collision. apply _. Defined.

(** No two moves of the flattening have the same target, and no target is
    the name of an export folder. *)
Definition no_clash (d : dir) : Prop :=
  NoDup (children_names d) /\
  Forall (fun child => child ∉ exportFolders d) (children_names d).

Global Instance no_clash_dec d : Decision (no_clash d).
Proof. unfold no_clash. apply _. Defined.

(** The destination once every export folder is flattened: the children
    of the export folders, next to the entries that are no export folder. *)
Definition hoisted (d : dir) : dir :=
  union_list (children_of d <$> exportFolders d)
  ∪ filter (fun kv => startsWith "Export-" kv.1 = false) d.

(** The node at the name of an export folder whose callback is in the
    given phase, [d0] being the destination the callbacks started from. *)
Definition folder_state (d0 d : dir) (folder : string) (ph : phase) : Prop :=
  match ph with
  | Reading => d !! folder = d0 !! folder
  | Moving pending =>
      exists ch, d0 !! folder = Some (Dir ch) /\ pending ⊆ dom ch /\
                 d !! folder = Some (Dir (filter (fun kv => kv.1 ∈ pending) ch))
  | Removed => d !! folder = None /\ exists ch, d0 !! folder = Some (Dir ch)
  end.

(** The node at the top-level name [child] while the callback of the
    folder holding the child [n] is in the given phase: what was there at
    the start, then the child. *)
Definition child_state (d0 : dir) (ph : phase) (child : string) (n : node) : option node :=
  match ph with
  | Reading => d0 !! child
  | Moving pending => if decide (child ∈ pending) then d0 !! child else Some n
  | Removed => Some n
  end.

(** What a state reached by the callbacks looks like. *)
Definition reached (d0 d : dir) (tasks : gmap string phase) : Prop :=
  (forall folder, is_Some (tasks !! folder) <-> folder ∈ exportFolders d0) /\
  (forall folder ph, tasks !! folder = Some ph -> folder_state d0 d folder ph) /\
  (forall folder ph child n,
     tasks !! folder = Some ph -> children_of d0 folder !! child = Some n ->
     d !! child = child_state d0 ph child n) /\
  (forall k, tasks !! k = None ->
     (forall folder, folder ∈ exportFolders d0 -> children_of d0 folder !! k = None) ->
     d !! k = d0 !! k).

(** ** Sample archives *)

(** A decoder given by a table: the archives of the examples, each with
    the entries adm-zip reads from it. *)
Definition table_reader (table : list (string * list ZipEntry)) (data : bytes)
  : option (list ZipEntry) :=
  snd <$> List.find (fun kv => String.eqb kv.1 (String.string_of_list_byte data)) table.

Definition entry (name content : string) : ZipEntry :=
  {| entryName := name; getData := String.list_byte_of_string content |}.

Definition text (content : string) : node := File (String.list_byte_of_string content).

Definition sample_reader : bytes -> option (list ZipEntry) :=
  table_reader
    [ ("two-parts", [entry "Part-1.zip" "part-1"; entry "Part-2.zip" "part-2";
                     entry "Export-foo/notes.md" "my notes"]);
      ("part-1", [entry "a.md" "A"; entry "img/logo.png" "L"]);
      ("part-2", [entry "b.md" "B"]);
      ("nested", [entry "Part-1.zip" "part-1-with-part-3"; entry "Part-2.zip" "part-2";
                  entry "Export-foo/notes.md" "my notes"]);
      ("part-1-with-part-3", [entry "a.md" "A"; entry "Part-3.zip" "part-2"]);
      ("two-folders", [entry "Export-a/x.md" "X"; entry "Export-a/y.md" "Y";
                       entry "Export-b/z.md" "Z"; entry "readme.md" "R"]);
      ("clash", [entry "Export-a/x.md" "from a"; entry "Export-b/x.md" "from b"]);
      ("broken-part", [entry "a.md" "A"; entry "Part-1.zip" "no zip data"]);
      ("loose", [entry "my-Part-12.zip.bak" "part-2"; entry "Export-/c.md" "C"]);
      ("export", [entry "Part-1.zip" "part-1"; entry "Part-2.zip" "part-2-more";
                  entry "Export-foo/" ""; entry "Export-foo/notes.md" "my notes";
                  entry "sub/Part-3.zip" "part-3"]);
      ("part-2-more", [entry "b.md" "B"; entry "Export-foo/more.md" "M"]);
      ("part-3", [entry "c.md" "C"]);
      ("racing", [entry "Part-1.zip" "part-1"; entry "Part-2.zip" "part-2-over-1"]);
      ("part-2-over-1", [entry "b.md" "B"; entry "Part-1.zip" "late"]);
      ("part-folder", [entry "a.md" "A"; entry "Part-1.zip/" ""]);
      ("part-like-text", [entry "a.md" "A"; entry "notes-Part-7.zip.txt" "plain text"]);
      ("wrapped", [entry "Export-foo/Export-bar/x.md" "X"]);
      ("dotted", [entry "Part-1.zip" "part-dotted"]);
      ("dotted-clash", [entry "Export-a/x.md" "from a"; entry "Export-b/y/../x.md" "from b"]);
      ("part-dotted", [entry "x/../Part-9.zip" "part-2"]) ].

Definition archive (name : string) : option bytes :=
  Some (String.list_byte_of_string name).

(** A service whose export succeeds at the first poll and whose download
    delivers the given archive. *)
Definition serving (name : string) : Network :=
  {| enqueueTask := inr "T";
     getTasks := [succeeded];
     getExport := fun _ _ =>
       inr {| content_length := Z.of_nat (String.length name);
              body := [Data (String.list_byte_of_string name); End] |} |}.

(** A service that rejects the download request. *)
Definition refusing_download : Network :=
  {| enqueueTask := inr "T";
     getTasks := [succeeded];
     getExport := fun _ _ => inl (AxiosError (Some 403)) |}.

(** ** A sequential order of the file-system calls *)

(** The calls of one callback, one after the other: the [readdir], the
    renames in the order of the listing, the [rmdir]. *)
Definition folder_schedule (d : dir) (folder : string) : list (string * string) :=
  (folder, "") :: ((fun child => (folder, child)) <$> readdir (children_of d folder))
  ++ [(folder, "")].

(** The callbacks one after the other. *)
Definition sequential_schedule (d : dir) : list (string * string) :=
  exportFolders d ≫= folder_schedule d.

(** The calls of a schedule, without the test for completion. *)
Fixpoint steps (schedule : list (string * string)) (d : dir) (tasks : gmap string phase)
  : exn + (dir * gmap string phase) :=
  match schedule with
  | [] => inr (d, tasks)
  | (folder, child) :: schedule' =>
      match step_task folder child d tasks with
      | inl e => inl e
      | inr (d', tasks') => steps schedule' d' tasks'
      end
  end.
(** ** Paths *)

(** [p] leads to [q] or to a directory above it. *)
Fixpoint is_prefix (p q : list string) : bool :=
  match p, q with
  | [], _ => true
  | x :: p', y :: q' => String.eqb x y && is_prefix p' q'
  | _ :: _, [] => false
  end.

(** [fs.unlink] as far as the tree goes: a failed call leaves it as it is. *)
Definition remove (p : list string) (d : dir) : dir :=
  match unlink p d with
  | inr d' => d'
  | inl _ => d
  end.

Definition remove_all (ps : list (list string)) (d : dir) : dir := foldr remove d ps.

(** The result of an operation that can throw, seen through [f]. *)
Definition on_success {A B E} (f : A -> B) (r : E + A) : E + B :=
  match r with
  | inl e => inl e
  | inr a => inr (f a)
  end.

(** ** The parts of an archive *)

(** The entries extracted one after the other with no unlink in flight. *)
Fixpoint extract_all (entries : list ZipEntry) (d : dir) : exn + dir :=
  match entries with
  | [] => inr d
  | e :: entries' =>
      match extract_entry e d with
      | inl err => inl err
      | inr d' => extract_all entries' d'
      end
  end.

(** The destination once the entries of the downloaded archive are
    extracted into an empty directory. *)
Definition outer (entries : list ZipEntry) : dir :=
  tree (extractAllTo entries (quiet ∅)).1.

(** The names of the archive the script takes for parts. *)
Definition partFiles (entries : list ZipEntry) : list string :=
  List.filter is_part_name (map entryName entries).

(** No entry of [entries] is to be written at one of the paths [ps] or
    below it. *)
Definition clear_of (ps : list (list string)) (entries : list ZipEntry) : bool :=
  forallb (fun e => forallb (fun p => negb (is_prefix p (canonical (entryName e)))) ps)
    entries.

Section Parts.

Variable readZip : bytes -> option (list ZipEntry).

(** The part of that name as the archive holds it: the path of its file
    in the destination and the entries it holds. *)
Definition read_part (d1 : dir) (partFile : string) : option (list string * list ZipEntry) :=
  match join partFile with
  | None => None
  | Some p =>
      match lookup_node p d1 with
      | Some (File data) =>
          match readZip data with
          | Some inner => Some (p, inner)
          | None => None
          end
      | _ => None
      end
  end.

(** The parts of the archive stay clear of one another: the part names
    are the paths of different files inside the destination, and no part
    holds an entry that is to be written at the path of a part file or
    below it. *)
Definition parts_apart (entries : list ZipEntry) : bool :=
  let paths := omap join (partFiles entries) in
  let parts := omap (read_part (outer entries)) (partFiles entries) in
  forallb (fun name => bool_decide (is_Some (join name))) (partFiles entries)
  && bool_decide (NoDup paths) && clear_of paths (parts ≫= snd).

(** The entries of the parts of the archive. *)
Definition inner_entries (entries : list ZipEntry) : list ZipEntry :=
  omap (read_part (outer entries)) (partFiles entries) ≫= snd.

End Parts.

(** The part names of the archive mean the same file to [join] and to
    adm-zip: no backslash and no ".." makes the file that is opened and
    unlinked another one than the file that was extracted. *)
Definition plain_part_names (entries : list ZipEntry) : bool :=
  forallb (fun name => bool_decide (join name = Some (canonical name))) (partFiles entries).

(** Where the flattening puts what lies at [p]: what lies in a folder
    whose name starts with "Export-" moves up. *)
Definition flat (p : list string) : list string :=
  match p with
  | folder :: child :: rest => if startsWith "Export-" folder then child :: rest else p
  | _ => p
  end.

(** A name the flattening would leave as a residue: the name of a part,
    or of an export folder. *)
Definition is_residue (name : string) : bool :=
  is_part_name name || startsWith "Export-" name.

(** The entries that are to be written at the path [q] or below it. *)
Definition writers (q : list string) (entries : list ZipEntry) : list ZipEntry :=
  List.filter (fun e => is_prefix q (canonical (entryName e))) entries.

(** ** Further auxiliary definitions *)

(** The console lines of [n] rate-limited replies in a row, the first one
    met with [rateLimitRetries = r]. *)
Definition backoff_lines (r : Z) (n : nat) : list log_line :=
  (fun i => LogRateLimited (2 ^ (r + Z.of_nat i))) <$> seq 0 n.

(** The node of that name at the top of [d] is a directory. *)
Definition is_dir (d : dir) (name : string) : bool :=
  match d !! name with
  | Some (Dir _) => true
  | _ => false
  end.

(** The progress line the loop prints after the state of a task, if any. *)
Definition progress_lines (task : NotionTask) : list log_line :=
  match status task with
  | Some s => if truthy_number (pagesExported s)
              then [LogProgress (default 0 (pagesExported s))]
              else []
  | None => []
  end.

(** * Properties of the name patterns *)

Lemma app_nil_inv (s1 s2 : string) : s1 +:+ s2 = "" -> s1 = "" /\ s2 = "".
Proof. destruct s1; simpl; [auto | discriminate]. Qed.

Lemma string_app_assoc (a b c : string) : (a +:+ b) +:+ c = a +:+ (b +:+ c).
Proof. induction a as [|x a IH]; simpl; [done | by rewrite IH]. Qed.

Lemma string_app_nil_r (a : string) : a +:+ "" = a.
Proof. induction a as [|x a IH]; simpl; [done | by rewrite IH]. Qed.

Lemma matches_seq_inv r1 r2 s :
  matches (Seq r1 r2) s -> exists s1 s2, s = s1 +:+ s2 /\ matches r1 s1 /\ matches r2 s2.
Proof. inversion 1; subst; eauto. Qed.

Lemma matches_alt_inv r1 r2 s :
  matches (Alt r1 r2) s -> matches r1 s \/ matches r2 s.
Proof. inversion 1; subst; eauto. Qed.

Lemma nullable_spec r : nullable r = true <-> matches r "".
Proof.
  induction r as [| | | | |r1 IH1 r2 IH2|r1 IH1 r2 IH2|r IH]; simpl;
    try (split; [discriminate | inversion 1]; fail).
  - split; [constructor | done].
  - rewrite andb_true_iff, IH1, IH2. split.
    + intros [M1 M2]. change "" with ("" +:+ ""). by constructor.
    + intros (s1 & s2 & E & M1 & M2)%matches_seq_inv.
      symmetry in E. by apply app_nil_inv in E as [-> ->].
  - rewrite orb_true_iff, IH1, IH2. split.
    + intros [M|M]; [by apply m_alt_l | by apply m_alt_r].
    + apply matches_alt_inv.
  - split; [constructor | done].
Qed.

Lemma star_cons_inv r s :
  matches (Star r) s ->
  s = "" \/ exists c s1 s2,
    s = String c (s1 +:+ s2) /\ matches r (String c s1) /\ matches (Star r) s2.
Proof.
  remember (Star r) as r' eqn:E. intros M. revert E.
  induction M; try discriminate; intros [= ->]; [by left |].
  destruct s1 as [|c s1]; simpl.
  - by apply IHM2.
  - right. by exists c, s1, s2.
Qed.

Lemma deriv_spec r : forall c s, matches (deriv c r) s <-> matches r (String c s).
Proof.
  induction r; intros a s; simpl.
  - split; inversion 1.
  - split; inversion 1.
  - destruct (Ascii.eqb_spec a c) as [->|Hne]; split; intros M; inversion M; subst;
      try constructor; congruence.
  - destruct (is_digit a) eqn:D; split; intros M; inversion M; subst;
      try (by constructor); congruence.
  - split; intros M; inversion M; subst; constructor.
  - assert (Hs : matches (Seq (deriv a r1) r2) s -> matches (Seq r1 r2) (String a s)).
    { intros (s1 & s2 & -> & M1 & M2)%matches_seq_inv.
      change (String a (s1 +:+ s2)) with (String a s1 +:+ s2).
      constructor; [apply IHr1|]; done. }
    assert (Hi : matches (Seq r1 r2) (String a s) ->
                 matches (Seq (deriv a r1) r2) s \/ (matches r1 "" /\ matches r2 (String a s))).
    { intros (s1 & s2 & E & M1 & M2)%matches_seq_inv.
      destruct s1 as [|c s1]; simpl in E.
      - right. subst. done.
      - injection E as -> ->. left. constructor; [apply IHr1|]; done. }
    destruct (nullable r1) eqn:N.
    + split; intros M.
      * apply matches_alt_inv in M as [M|M]; [by apply Hs|].
        change (String a s) with ("" +:+ String a s).
        constructor; [by apply nullable_spec | by apply IHr2].
      * destruct (Hi M) as [?|[_ ?]]; [by apply m_alt_l | by apply m_alt_r, IHr2].
    + split; [done|]. intros M. destruct (Hi M) as [?|[Hn _]]; [done|].
      apply nullable_spec in Hn. congruence.
  - split; intros [M|M]%matches_alt_inv;
      solve [apply m_alt_l; by apply IHr1 | apply m_alt_r; by apply IHr2].
  - split; intros M.
    + apply matches_seq_inv in M as (s1 & s2 & -> & M1 & M2).
      change (String a (s1 +:+ s2)) with (String a s1 +:+ s2).
      constructor; [by apply IHr | done].
    + apply star_cons_inv in M as [|(c & s1 & s2 & E & M1 & M2)]; [discriminate|].
      injection E as -> ->. constructor; [by apply IHr | done].
Qed.

Lemma accepts_spec s : forall r, accepts r s = true <-> matches r s.
Proof.
  induction s as [|c s IH]; intros r; simpl.
  - apply nullable_spec.
  - rewrite IH. apply deriv_spec.
Qed.

Lemma matches_any_star s : matches (Star AnyChar) s.
Proof.
  induction s as [|c s IH]; [constructor|].
  change (String c s) with (String c "" +:+ s). constructor; [constructor | done].
Qed.

Lemma test_spec r s :
  test r s = true <-> exists pre m post, s = pre +:+ m +:+ post /\ matches r m.
Proof.
  unfold test. rewrite accepts_spec. split.
  - intros (pre & s' & -> & _ & (m & post & -> & M & _)%matches_seq_inv)%matches_seq_inv.
    eauto.
  - intros (pre & m & post & -> & M).
    constructor; [apply matches_any_star|]. constructor; [done | apply matches_any_star].
Qed.




Lemma prefix_spec p s : String.prefix p s = true <-> exists rest, s = p +:+ rest.
Proof.
  revert s. induction p as [|c p IH]; intros s.
  - destruct s; simpl; (split; [by eexists | done]).
  - destruct s as [|c' s]; simpl; [split; [done | by intros [? ?]]|].
    destruct (Ascii.ascii_dec c c') as [->|Hne].
    + rewrite IH. split; intros [rest E]; exists rest; congruence.
    + split; [done|]. intros [rest E]. congruence.
Qed.


(** * Properties of the export driver *)

(** The timeout message, written out. *)
Example timeout_message_text :
  timeout_message = "Export task timed out after 100 attempts (5 minutes).".
Proof. vm_compute. reflexivity. Qed.

(** ** The argument of [sleep] *)

Lemma binary64_exact n : 0 <= n < 2 ^ 53 -> binary64 n = n.
Proof.
  intros [H0 H]. unfold binary64.
  assert (Z.log2 n < 53).
  { destruct (decide (n = 0)) as [->|Hn]; [reflexivity|]. apply Z.log2_lt_pow2; lia. }
  destruct (Z.leb_spec (Z.log2 n - 52) 0); [reflexivity | lia].
Qed.

Lemma binary64_large n : 2 ^ 53 <= n -> 2 ^ 53 <= binary64 n.
Proof.
  intros H. unfold binary64.
  assert (P : 0 < 2 ^ 53) by reflexivity.
  assert (L : 53 <= Z.log2 n) by (apply Z.log2_le_pow2; lia).
  destruct (Z.leb_spec (Z.log2 n - 52) 0) as [|E]; [lia|].
  set (e := Z.log2 n - 52) in *.
  assert (He : 0 < 2 ^ e) by (apply Z.pow_pos_nonneg; lia).
  assert (Q : 2 ^ 52 <= n / 2 ^ e).
  { apply Z.div_le_lower_bound; [lia|].
    rewrite Z.mul_comm, <- Z.pow_add_r by lia.
    replace (52 + e) with (Z.log2 n) by (unfold e; lia).
    apply Z.log2_spec. lia. }
  assert (2 ^ 53 <= 2 ^ 52 * 2 ^ e).
  { change (2 ^ 53) with (2 ^ 52 * 2 ^ 1). apply Z.mul_le_mono_nonneg_l; [lia|].
    apply Z.pow_le_mono_r; lia. }
  destruct (_ || _); nia.
Qed.

(** Up to 52 strikes the number of seconds handed to [sleep] is the exact
    sum. *)
Lemma sleep_seconds_exact r :
  0 <= r <= 52 -> binary64 (POLL_INTERVAL + 2 ^ r) = POLL_INTERVAL + 2 ^ r.
Proof.
  intros Hr. apply binary64_exact. unfold POLL_INTERVAL.
  assert (0 < 2 ^ r) by (apply Z.pow_pos_nonneg; lia).
  assert (2 ^ r <= 2 ^ 52) by (apply Z.pow_le_mono_r; lia).
  split; [lia|]. change (2 ^ 53) with (2 ^ 52 + 2 ^ 52).
  assert (3 < 2 ^ 52) by reflexivity. lia.
Qed.

(** Every sleep of the loop is asked to last 4 seconds at least. *)
Lemma sleep_seconds_ge r : 0 <= r -> 4 <= binary64 (POLL_INTERVAL + 2 ^ r).
Proof.
  intros Hr. assert (1 <= 2 ^ r) by (apply Z.pow_le_mono_r with (b := 0); lia).
  unfold POLL_INTERVAL.
  destruct (decide (3 + 2 ^ r < 2 ^ 53)) as [Hs|Hl].
  - rewrite binary64_exact by lia. lia.
  - assert (2 ^ 53 <= binary64 (3 + 2 ^ r)) by (apply binary64_large; lia).
    assert (4 < 2 ^ 53) by reflexivity. lia.
Qed.

Section Driver.

Variable taskId : string.

Lemma iteration_rate_limited st :
  iteration taskId (Rejects (AxiosError (Some 429))) st =
  ({| pollAttempts := pollAttempts st;
      rateLimitRetries := rateLimitRetries st + 1;
      console := console st ++ [LogRateLimited (2 ^ rateLimitRetries st)];
      slept := slept st + binary64 (POLL_INTERVAL + 2 ^ rateLimitRetries st) |}, Continue).
Proof.
  unfold iteration, catch_block, log, sleep, set_pollAttempts, set_rateLimitRetries; simpl.
  do 2 f_equal. lia.
Qed.

Lemma iteration_not_found r st :
  finds taskId r = None ->
  iteration taskId (Resolves r) st =
  ({| pollAttempts := pollAttempts st + 1;
      rateLimitRetries := rateLimitRetries st;
      console := console st ++ [LogTaskNotFound (pollAttempts st + 1) MAX_POLL_ATTEMPTS];
      slept := slept st + binary64 (POLL_INTERVAL + 2 ^ rateLimitRetries st) |}, Continue).
Proof.
  intros H. unfold iteration, try_block. unfold finds in H. simpl. rewrite H. reflexivity.
Qed.

Lemma logged_state_pollAttempts task st :
  pollAttempts (logged_state task st) = pollAttempts st + 1.
Proof.
  unfold logged_state. destruct (status task) as [s|]; [destruct (truthy_number _)|]; reflexivity.
Qed.

Lemma iteration_error_field r st task :
  finds taskId r = Some task ->
  truthy_string (error task) = true ->
  iteration taskId (Resolves r) st =
  (logged_state task st,
   Throw (Error ("Export failed with reason: " +:+ default "" (error task)))).
Proof.
  intros H E. unfold iteration, try_block. unfold finds in H. simpl. rewrite H.
  cbv zeta. rewrite E. reflexivity.
Qed.

Lemma iteration_in_progress r st task :
  finds taskId r = Some task ->
  truthy_string (error task) = false ->
  String.eqb (state task) "success" = false ->
  iteration taskId (Resolves r) st = (set_rateLimitRetries 0 (logged_state task st), Continue).
Proof.
  intros H E S. unfold iteration, try_block. unfold finds in H. simpl. rewrite H.
  cbv zeta. rewrite E, S. reflexivity.
Qed.

Lemma find_some {A} (p : A -> bool) xs x : find p xs = Some x -> p x = true /\ x ∈ xs.
Proof.
  induction xs as [|y xs IH]; simpl; [discriminate|].
  destruct (p y) eqn:P.
  - intros [= ->]. split; [done | left].
  - intros H. destruct (IH H). split; [done | by right].
Qed.

Lemma includes_nonempty needle hay :
  needle <> "" -> includes needle hay = true -> hay <> "".
Proof. intros N H ->. simpl in H. destruct needle; [done | discriminate]. Qed.

Lemma truthy_string_Some s : truthy_string (Some s) = true <-> s <> "".
Proof.
  simpl. destruct (String.eqb_spec s ""); split; intros; simpl in *; congruence.
Qed.

Lemma iteration_success r st task s url cookies cookie :
  finds taskId r = Some task ->
  truthy_string (error task) = false ->
  state task = "success" ->
  status task = Some s ->
  exportURL s = Some url -> url <> "" ->
  set_cookie r = Some cookies ->
  find (includes "file_token=") cookies = Some cookie ->
  exists st', iteration taskId (Resolves r) st = (st', Break url cookie) /\
              pollAttempts st' = pollAttempts st + 1.
Proof.
  intros H E S HS HU NU HC HF.
  assert (T : truthy_string (Some url) = true) by by apply truthy_string_Some.
  assert (T' : truthy_string (Some cookie) = true).
  { apply truthy_string_Some. apply find_some in HF as [HF _].
    by eapply includes_nonempty in HF. }
  unfold iteration, try_block. unfold finds in H. cbv beta iota zeta.
  rewrite H, E, S, HS, HU, HC, HF, T, T'. cbn [String.eqb Ascii.eqb Bool.eqb default].
  eexists. split; [reflexivity|].
  destruct (truthy_number (pagesExported s)); reflexivity.
Qed.

Lemma poll_loop_step rp rest st :
  pollAttempts st < MAX_POLL_ATTEMPTS ->
  poll_loop taskId (rp :: rest) st =
  match iteration taskId rp st with
  | (st', Continue) => poll_loop taskId rest st'
  | (st', Break url cookie) => (st', timeout_check st' (Some url) (Some cookie))
  | (st', Throw e) => (st', PollThrew e)
  end.
Proof. intros H. simpl. apply Z.ltb_lt in H. by rewrite H. Qed.

Lemma poll_loop_exhausted replies st :
  MAX_POLL_ATTEMPTS <= pollAttempts st ->
  poll_loop taskId replies st = (st, PollThrew (Error timeout_message)).
Proof.
  intros H. assert (L : (pollAttempts st <? MAX_POLL_ATTEMPTS) = false) by (by apply Z.ltb_ge).
  unfold timeout_check. apply Z.leb_le in H.
  destruct replies; simpl; rewrite L; unfold timeout_check; by rewrite H.
Qed.

Lemma poll_loop_no_reply st :
  poll_loop taskId [] st =
  (st, if pollAttempts st <? MAX_POLL_ATTEMPTS then Awaiting
       else PollThrew (Error timeout_message)).
Proof.
  simpl. destruct (Z.ltb_spec (pollAttempts st) MAX_POLL_ATTEMPTS) as [|H]; [done|].
  unfold timeout_check. apply Z.leb_le in H. by rewrite H.
Qed.

Lemma attempts_used_cons rp rest :
  attempts_used (rp :: rest) =
  (if is_rate_limited rp then 0 else 1) + attempts_used rest.
Proof.
  unfold attempts_used. simpl. destruct (is_rate_limited rp); simpl; lia.
Qed.

Lemma timeout_when_non_terminal replies : forall st,
  forallb (non_terminal taskId) replies = true ->
  MAX_POLL_ATTEMPTS - pollAttempts st <= attempts_used replies ->
  (poll_loop taskId replies st).2 = PollThrew (Error timeout_message).
Proof.
  induction replies as [|rp rest IH]; intros st NT Hn.
  - rewrite poll_loop_exhausted; [done|]. unfold attempts_used in Hn. simpl in Hn. lia.
  - destruct (decide (MAX_POLL_ATTEMPTS <= pollAttempts st)) as [Hge|Hlt].
    { by rewrite poll_loop_exhausted. }
    rewrite poll_loop_step by lia.
    simpl in NT. apply andb_true_iff in NT as [N NT]. rewrite attempts_used_cons in Hn.
    destruct rp as [r|e].
    + simpl in N, Hn. destruct (finds taskId r) as [task|] eqn:F.
      * apply andb_true_iff in N as [E S]. apply negb_true_iff in E, S.
        rewrite (iteration_in_progress _ _ _ F E S). apply IH; [done|].
        simpl. rewrite logged_state_pollAttempts. lia.
      * rewrite (iteration_not_found _ _ F). apply IH; [done|]. simpl. lia.
    + simpl in N. destruct e as [[code|]| | |]; try discriminate.
      destruct (decide (code = 429)) as [->|Hne].
      * rewrite iteration_rate_limited. apply IH; [done|]. simpl in *. lia.
      * unfold is_rate_limited in N. destruct code as [|p|p]; try discriminate.
        repeat (destruct p as [p|p|]; try discriminate). done.
Qed.

(** A well-formed success reply below the ceiling ends the polling with
    the URL and the cookie of that reply. *)
Lemma success_below_ceiling r rest st task s url cookies cookie :
  pollAttempts st + 1 < MAX_POLL_ATTEMPTS ->
  finds taskId r = Some task ->
  truthy_string (error task) = false ->
  state task = "success" ->
  status task = Some s ->
  exportURL s = Some url -> url <> "" ->
  set_cookie r = Some cookies ->
  find (includes "file_token=") cookies = Some cookie ->
  (poll_loop taskId (Resolves r :: rest) st).2 = Proceeds (Some url) (Some cookie).
Proof.
  intros Hlt F E S HS HU NU HC HF. rewrite poll_loop_step by lia.
  destruct (iteration_success r st task s url cookies cookie F E S HS HU NU HC HF)
    as (st' & -> & P). simpl. unfold timeout_check.
  assert ((MAX_POLL_ATTEMPTS <=? pollAttempts st') = false) as -> by (apply Z.leb_gt; lia).
  done.
Qed.

(** The same reply at the last attempt the ceiling allows ends in the
    timeout error. *)
Lemma success_at_ceiling r rest st task s url cookies cookie :
  pollAttempts st + 1 = MAX_POLL_ATTEMPTS ->
  finds taskId r = Some task ->
  truthy_string (error task) = false ->
  state task = "success" ->
  status task = Some s ->
  exportURL s = Some url -> url <> "" ->
  set_cookie r = Some cookies ->
  find (includes "file_token=") cookies = Some cookie ->
  (poll_loop taskId (Resolves r :: rest) st).2 = PollThrew (Error timeout_message).
Proof.
  intros Hlt F E S HS HU NU HC HF. rewrite poll_loop_step by lia.
  destruct (iteration_success r st task s url cookies cookie F E S HS HU NU HC HF)
    as (st' & -> & P). simpl. unfold timeout_check.
  assert ((MAX_POLL_ATTEMPTS <=? pollAttempts st') = true) as -> by (apply Z.leb_le; lia).
  done.
Qed.

(** A success reply without a usable export URL throws at any attempt. *)
Lemma success_without_url r rest st task :
  pollAttempts st < MAX_POLL_ATTEMPTS ->
  finds taskId r = Some task ->
  truthy_string (error task) = false ->
  state task = "success" ->
  match status task with Some s => truthy_string (exportURL s) | None => false end = false ->
  (poll_loop taskId (Resolves r :: rest) st).2
    = PollThrew (Error "Task succeeded but exportURL is missing. See task object above.").
Proof.
  intros Hlt F E S HU. rewrite poll_loop_step by done.
  unfold iteration, try_block. unfold finds in F. cbv beta iota zeta.
  rewrite F, E, S. cbn [String.eqb Ascii.eqb Bool.eqb].
  destruct (status task) as [s|]; [rewrite HU|]; reflexivity.
Qed.

(** A success reply whose cookies hold no file token throws at any attempt. *)
Lemma success_without_cookie r rest st task s cookies :
  pollAttempts st < MAX_POLL_ATTEMPTS ->
  finds taskId r = Some task ->
  truthy_string (error task) = false ->
  state task = "success" ->
  status task = Some s ->
  truthy_string (exportURL s) = true ->
  set_cookie r = Some cookies ->
  find (includes "file_token=") cookies = None ->
  (poll_loop taskId (Resolves r :: rest) st).2
    = PollThrew (Error "Task finished but file_token cookie not found.").
Proof.
  intros Hlt F E S HS HU HC HF. rewrite poll_loop_step by done.
  unfold iteration, try_block. unfold finds in F. cbv beta iota zeta.
  rewrite F, E, S, HS, HU, HC, HF. reflexivity.
Qed.

End Driver.

(** C1 (defect): a well-formed success reply makes the driver go on to the
    download when it arrives at the 99th attempt, but at the 100th attempt,
    the last one the ceiling allows, the check that follows the loop throws
    the timeout error although the reply carries both the export URL and
    the file-token cookie. *)
Theorem C1_success_on_last_attempt :
  (poll_loop "T" (repeat in_progress 98 ++ [succeeded]) initial_state).2
    = Proceeds (Some "https://files.example/export.zip") (Some "file_token=abc; Path=/") /\
  (poll_loop "T" (repeat in_progress 99 ++ [succeeded]) initial_state).2
    = PollThrew (Error "Export task timed out after 100 attempts (5 minutes).").
Proof. split; vm_compute; reflexivity. Qed.

(** C2 (defect): a rate-limited reply leaves [pollAttempts] as it was and
    raises [rateLimitRetries]; a not-found reply that follows does not
    reset [rateLimitRetries], so the next sleep still has the backoff
    (3 + 2^1 seconds instead of 3 + 2^0). *)
Theorem C2_not_found_keeps_strikes :
  let st1 := (iteration "T" rate_limited initial_state).1 in
  let st2 := (iteration "T" not_found st1).1 in
  let st3 := (iteration "T" not_found st2).1 in
  pollAttempts st1 = 0 /\ rateLimitRetries st1 = 1 /\
  pollAttempts st2 = 1 /\ rateLimitRetries st2 = 1 /\
  slept st3 - slept st2 = 5.
Proof. vm_compute. repeat split; reflexivity. Qed.

(** C3: when the record of the task carries a non-empty error field, the
    polling loop throws "Export failed with reason: ..." at once, whatever
    the state, the status and the cookies of the reply are. *)
Theorem C3_error_field_fails (taskId : string) (r : TasksResponse) (rest : list reply)
    (st : poll_state) (task : NotionTask) (reason : string) :
  pollAttempts st < MAX_POLL_ATTEMPTS ->
  find (fun t => String.eqb (id t) taskId) (results r) = Some task ->
  error task = Some reason ->
  reason <> "" ->
  (poll_loop taskId (Resolves r :: rest) st).2
    = PollThrew (Error ("Export failed with reason: " +:+ reason)).
Proof.
  intros Hlt F E N. rewrite poll_loop_step by done.
  rewrite (iteration_error_field taskId r st task F).
  - by rewrite E.
  - rewrite E. by apply truthy_string_Some.
Qed.

Lemma C3_error_field_fails_witness :
  (poll_loop "T" [Resolves failed_while_success] initial_state).2
    = PollThrew (Error "Export failed with reason: quota exceeded").
Proof.
  apply (C3_error_field_fails "T" failed_while_success [] initial_state
           {| id := "T"; state := "success";
              status := Some {| pagesExported := Some 40;
                                exportURL := Some "https://files.example/export.zip" |};
              error := Some "quota exceeded" |} "quota exceeded").
  - reflexivity.
  - reflexivity.
  - reflexivity.
  - discriminate.
Defined.

(** C4 (amended): when the replies leave the job non-terminal until
    [pollAttempts] reaches the ceiling, the driver throws the timeout
    error; its message names the configured number of attempts and the
    fixed figure MAX_POLL_ATTEMPTS * POLL_INTERVAL / 60 = 5 minutes. *)
Theorem C4_timeout_at_ceiling (taskId : string) (replies : list reply) (st : poll_state) :
  forallb (non_terminal taskId) replies = true ->
  MAX_POLL_ATTEMPTS - pollAttempts st <= attempts_used replies ->
  (poll_loop taskId replies st).2
    = PollThrew (Error "Export task timed out after 100 attempts (5 minutes).").
Proof. intros NT Hn. by rewrite (timeout_when_non_terminal taskId replies st NT Hn). Qed.

Lemma C4_timeout_at_ceiling_witness :
  (poll_loop "T" (rate_limited :: not_found :: repeat in_progress 99) initial_state).2
    = PollThrew (Error "Export task timed out after 100 attempts (5 minutes).").
Proof.
  apply (C4_timeout_at_ceiling "T" (rate_limited :: not_found :: repeat in_progress 99)
           initial_state).
  - vm_compute. reflexivity.
  - vm_compute. discriminate.
Defined.

(** C4 (as stated, refuted): two runs that time out carry the same
    diagnostic, "5 minutes", although the loop slept 400 seconds in one
    and 405 seconds in the other: the diagnostic is not the elapsed time. *)
Lemma C4_diagnostic_is_not_elapsed_time :
  let run1 := poll_loop "T" (repeat in_progress 100) initial_state in
  let run2 := poll_loop "T" (rate_limited :: repeat in_progress 100) initial_state in
  run1.2 = PollThrew (Error "Export task timed out after 100 attempts (5 minutes).") /\
  run2.2 = run1.2 /\
  slept run1.1 = 400 /\ slept run2.1 = 405.
Proof. vm_compute. repeat split; reflexivity. Qed.

(** C5: a reply whose result set has no record with the submitted id makes
    the pass through the loop body log "Task not found, retrying..." and
    end without an exception, the poll counted in [pollAttempts] and
    [rateLimitRetries] as it was; the loop goes on with the next reply from
    that state, and when no further reply has come it is waiting for one
    (or, the ceiling reached, throws the timeout error). *)
Theorem C5_not_found_continues (taskId : string) (r : TasksResponse) (rest : list reply)
    (st : poll_state) :
  pollAttempts st < MAX_POLL_ATTEMPTS ->
  0 <= rateLimitRetries st <= 52 ->
  find (fun t => String.eqb (id t) taskId) (results r) = None ->
  let st' :=
    {| pollAttempts := pollAttempts st + 1;
       rateLimitRetries := rateLimitRetries st;
       console := console st ++ [LogTaskNotFound (pollAttempts st + 1) MAX_POLL_ATTEMPTS];
       slept := slept st + (POLL_INTERVAL + 2 ^ rateLimitRetries st) |} in
  iteration taskId (Resolves r) st = (st', Continue) /\
  poll_loop taskId [Resolves r] st =
    (st', if pollAttempts st + 1 <? MAX_POLL_ATTEMPTS then Awaiting
          else PollThrew (Error timeout_message)) /\
  poll_loop taskId (Resolves r :: rest) st = poll_loop taskId rest st'.
Proof.
  intros Hlt Hr F. cbv zeta.
  pose proof (iteration_not_found taskId r st F) as I.
  rewrite sleep_seconds_exact in I by done.
  split_and!.
  - done.
  - rewrite poll_loop_step by done. rewrite I. by rewrite poll_loop_no_reply.
  - rewrite poll_loop_step by done. by rewrite I.
Qed.

Lemma C5_not_found_continues_witness :
  let st' := {| pollAttempts := 1; rateLimitRetries := 0;
                console := [LogTaskNotFound 1 100]; slept := 4 |} in
  iteration "T" not_found initial_state = (st', Continue) /\
  poll_loop "T" [not_found] initial_state = (st', Awaiting) /\
  poll_loop "T" [not_found; succeeded] initial_state = poll_loop "T" [succeeded] st'.
Proof.
  apply (C5_not_found_continues "T" {| results := []; set_cookie := None |}
           [succeeded] initial_state).
  - reflexivity.
  - vm_compute. split; discriminate.
  - reflexivity.
Defined.

(** ** The download *)

Lemma pipe_chunks chunks ev rest : forall written,
  pipe ((Data <$> chunks) ++ ev :: rest) written =
  pipe (ev :: rest) (written ++ concat chunks).
Proof.
  induction chunks as [|c chunks IH]; intros written; simpl.
  - by rewrite app_nil_r.
  - rewrite IH. by rewrite <- app_assoc.
Qed.

Lemma exportFromNotion_download net taskId st url cookie response :
  enqueueTask net = inr taskId ->
  poll_loop taskId (getTasks net) initial_state = (st, Proceeds url cookie) ->
  getExport net url cookie = inr response ->
  exportFromNotion net =
  match pipe (body response) [] with
  | (file, Resolved) => (st, file, Completed)
  | (file, Rejected e) => (st, file, Failed e)
  | (file, Unsettled) => (st, file, Pending)
  end.
Proof. intros HE HP HG. unfold exportFromNotion. by rewrite HE, HP, HG. Qed.

(** C8 (defect): when the response stream fails before the bytes the
    response declared have been received (the connection breaks or is
    closed early), the download does not reject: the promise the script
    awaits is never settled, so the call neither throws nor returns, and
    the bytes received are left in the file. *)
Theorem C8_truncated_download_never_settles (net : Network) (taskId : string)
    (st : poll_state) (url cookie : option string) (response : DownloadResponse)
    (chunks : list bytes) (e : exn) (rest : list stream_event) :
  enqueueTask net = inr taskId ->
  poll_loop taskId (getTasks net) initial_state = (st, Proceeds url cookie) ->
  getExport net url cookie = inr response ->
  body response = (Data <$> chunks) ++ SourceError e :: rest ->
  Z.of_nat (length (concat chunks)) < content_length response ->
  exportFromNotion net = (st, Some (concat chunks), Pending).
Proof.
  intros HE HP HG HB _. rewrite (exportFromNotion_download _ _ _ _ _ _ HE HP HG), HB.
  by rewrite pipe_chunks.
Qed.

Lemma C8_truncated_download_never_settles_witness :
  exportFromNotion truncated_download =
  ({| pollAttempts := 1; rateLimitRetries := 0;
      console := [LogTaskState 1 100 "success"; LogProgress 40; LogExportFinished (Some 40)];
      slept := 4 |},
   Some (String.list_byte_of_string "PK-abc"), Pending).
Proof.
  apply (C8_truncated_download_never_settles truncated_download "T" _
           (Some "https://files.example/export.zip") (Some "file_token=abc; Path=/")
           {| content_length := 1000;
              body := [Data (String.list_byte_of_string "PK-");
                       Data (String.list_byte_of_string "abc");
                       SourceError (Error "aborted")] |}
           [String.list_byte_of_string "PK-"; String.list_byte_of_string "abc"]
           (Error "aborted") []).
  - reflexivity.
  - vm_compute. reflexivity.
  - reflexivity.
  - reflexivity.
  - vm_compute. reflexivity.
Defined.

(** An error of the write stream, by contrast, rejects the download. *)
Example write_error_rejects :
  (exportFromNotion disk_full_download).2 = Failed (SystemError "ENOSPC").
Proof. vm_compute. reflexivity. Qed.

(** When the file cannot be opened, the download rejects and has written
    no file. *)
Example open_error_rejects :
  (exportFromNotion unwritable_download).1.2 = None /\
  (exportFromNotion unwritable_download).2 = Failed (SystemError "EACCES").
Proof. vm_compute. split; reflexivity. Qed.

(** * Properties of the archive normaliser *)

#[local] Set Warnings "-clear-no-such-hyp".

(** ** Flattening the export folders *)

Lemma elem_of_readdir (d : dir) k : k ∈ readdir d <-> is_Some (d !! k).
Proof.
  unfold readdir. rewrite list_elem_of_fmap. split.
  - intros ([k' n] & -> & H). apply elem_of_map_to_list in H. by eexists.
  - intros [n H]. exists (k, n). split; [done|]. by apply elem_of_map_to_list.
Qed.

Lemma elem_of_exportFolders (d : dir) k :
  k ∈ exportFolders d <-> is_Some (d !! k) /\ startsWith "Export-" k = true.
Proof.
  unfold exportFolders. rewrite list_elem_of_In, filter_In, <- list_elem_of_In.
  by rewrite elem_of_readdir.
Qed.

Lemma NoDup_exportFolders (d : dir) : NoDup (exportFolders d).
Proof.
  unfold exportFolders, readdir. apply NoDup_ListNoDup, List.NoDup_filter, NoDup_ListNoDup.
  apply NoDup_fst_map_to_list.
Qed.

Lemma start_tasks_lookup (d : dir) k :
  start_tasks d !! k = if decide (k ∈ exportFolders d) then Some Reading else None.
Proof.
  unfold start_tasks. case_decide as H.
  - apply elem_of_list_to_map.
    + rewrite <- list_fmap_compose. simpl. rewrite list_fmap_id. apply NoDup_exportFolders.
    + apply list_elem_of_fmap. by exists k.
  - apply not_elem_of_list_to_map. rewrite <- list_fmap_compose. simpl.
    by rewrite list_fmap_id.
Qed.

Lemma children_of_Dir (d : dir) folder ch :
  d !! folder = Some (Dir ch) -> children_of d folder = ch.
Proof. unfold children_of. by intros ->. Qed.

Lemma bind_NoDup_owner {A B} (f : A -> list B) (l : list A) x a b :
  NoDup (l ≫= f) -> a ∈ l -> b ∈ l -> x ∈ f a -> x ∈ f b -> a = b.
Proof.
  induction l as [|a0 l IH]; simpl; [by intros _ ?%elem_of_nil|].
  intros [N1 [N2 N3]]%NoDup_app [->|Ha]%elem_of_cons [->|Hb]%elem_of_cons Xa Xb.
  - done.
  - exfalso. apply (N2 x Xa). apply list_elem_of_bind. eauto.
  - exfalso. apply (N2 x Xb). apply list_elem_of_bind. eauto.
  - by apply IH.
Qed.

Lemma lookup_union_list_Some (ms : list dir) k n :
  union_list ms !! k = Some n -> exists m, m ∈ ms /\ m !! k = Some n.
Proof.
  induction ms as [|m ms IH]; simpl; [by rewrite lookup_empty|].
  intros [H|[_ H]]%lookup_union_Some_raw.
  - exists m. split; [left | done].
  - destruct (IH H) as (m' & ? & ?). exists m'. split; [by right | done].
Qed.

Lemma lookup_union_list_None (ms : list dir) k m :
  union_list ms !! k = None -> m ∈ ms -> m !! k = None.
Proof.
  induction ms as [|m' ms IH]; simpl; [by intros _ ?%elem_of_nil|].
  intros [H1 H2]%lookup_union_None [->|H]%elem_of_cons; [done | by apply IH].
Qed.

Lemma filter_pending_all (ch : dir) : filter (fun kv => kv.1 ∈ dom ch) ch = ch.
Proof. apply map_filter_id. intros k n H. simpl. apply elem_of_dom. by eexists. Qed.

Lemma filter_pending_none (ch : dir) : filter (fun kv => kv.1 ∈ (∅ : gset string)) ch = ∅.
Proof.
  apply map_eq. intros k. rewrite lookup_empty. apply map_lookup_filter_None.
  right. intros n _. simpl. set_solver.
Qed.

Lemma filter_pending_delete (ch : dir) (pending : gset string) c :
  delete c (filter (fun kv => kv.1 ∈ pending) ch)
  = filter (fun kv => kv.1 ∈ pending ∖ {[c]}) ch.
Proof.
  apply map_eq. intros k. destruct (decide (c = k)) as [->|Hne].
  - rewrite lookup_delete_eq. symmetry. apply map_lookup_filter_None.
    right. intros n _. simpl. set_solver.
  - rewrite lookup_delete_ne by done. rewrite !map_lookup_filter.
    destruct (ch !! k) as [n|]; simpl; [|done].
    repeat case_guard; simpl; try done; set_solver.
Qed.

Lemma elem_of_children_names (d : dir) c :
  c ∈ children_names d <->
  exists folder, folder ∈ exportFolders d /\ is_Some (children_of d folder !! c).
Proof.
  unfold children_names. rewrite list_elem_of_bind.
  split; intros (folder & H1 & H2); exists folder.
  - split; [done|]. by apply elem_of_readdir.
  - split; [|done]. by apply elem_of_readdir.
Qed.

Lemma no_collision_no_clash (d : dir) : no_collision d -> no_clash d.
Proof.
  intros (_ & N & M)%NoDup_app. split; [done|].
  apply Forall_forall. intros c Hc [S _]%elem_of_exportFolders.
  apply (N c); [by apply elem_of_readdir | done].
Qed.

(** Without collisions the target of a move is free. *)
Lemma child_not_top (d0 : dir) folder c :
  no_collision d0 ->
  folder ∈ exportFolders d0 -> is_Some (children_of d0 folder !! c) -> d0 !! c = None.
Proof.
  intros free HF HC. destruct (d0 !! c) eqn:E; [exfalso | done].
  apply NoDup_app in free as (_ & N & _). apply (N c).
  - apply elem_of_readdir. by rewrite E.
  - apply elem_of_children_names. eauto.
Qed.

Section Flatten.

Variable d0 : dir.
Hypothesis free : no_clash d0.

Lemma child_one_owner f1 f2 c :
  f1 ∈ exportFolders d0 -> f2 ∈ exportFolders d0 ->
  is_Some (children_of d0 f1 !! c) -> is_Some (children_of d0 f2 !! c) -> f1 = f2.
Proof.
  intros H1 H2 C1 C2. destruct free as [N _].
  eapply (bind_NoDup_owner _ _ c f1 f2 N); try done; by apply elem_of_readdir.
Qed.

Lemma child_not_folder folder c :
  folder ∈ exportFolders d0 -> is_Some (children_of d0 folder !! c) -> c ∉ exportFolders d0.
Proof.
  intros HF HC. destruct free as [_ M]. rewrite Forall_forall in M. apply M.
  apply elem_of_children_names. eauto.
Qed.

Lemma reached_start : reached d0 d0 (start_tasks d0).
Proof.
  unfold reached. split_and!.
  - intros folder. rewrite start_tasks_lookup. case_decide; [done | by split; [intros []|]].
  - intros folder ph. rewrite start_tasks_lookup. case_decide; [|done]. by intros [= <-].
  - intros folder ph c n. rewrite start_tasks_lookup. case_decide as HF; [|done].
    by intros [= <-] HC.
  - done.
Qed.

(** Updating the phase of one folder: the obligations are those of the
    folder itself and of its children; everything else is framed. *)
Lemma reached_update d tasks folder ph d' :
  reached d0 d tasks ->
  folder ∈ exportFolders d0 ->
  (forall k, k <> folder -> children_of d0 folder !! k = None -> d' !! k = d !! k) ->
  folder_state d0 d' folder ph ->
  (forall c n, children_of d0 folder !! c = Some n -> d' !! c = child_state d0 ph c n) ->
  reached d0 d' (<[folder := ph]> tasks).
Proof.
  intros (I1 & I2 & I3 & I4) HF Frame Own Kids. unfold reached. split_and!.
  - intros F. rewrite lookup_insert_is_Some, I1. split.
    + by intros [<-|[_ ?]].
    + intros ?. destruct (decide (folder = F)); [by left | by right].
  - intros F p. rewrite lookup_insert. case_decide as E; [intros [= <-]; by subst F|].
    intros T. assert (FF : F ∈ exportFolders d0) by (apply I1; by eexists).
    specialize (I2 F p T).
    assert (d' !! F = d !! F) as EQ.
    { apply Frame; [done|]. destruct (children_of d0 folder !! F) eqn:C; [|done].
      exfalso. by eapply (child_not_folder folder F). }
    destruct p; simpl in *; by rewrite EQ.
  - intros F p c n. rewrite lookup_insert. case_decide as E.
    + intros [= <-]. subst F. apply Kids.
    + intros T C. assert (FF : F ∈ exportFolders d0) by (apply I1; by eexists).
      rewrite <- (I3 F p c n T C). apply Frame.
      * intros ->. by eapply (child_not_folder F folder).
      * destruct (children_of d0 folder !! c) eqn:C'; [|done]. exfalso. apply E.
        by eapply (child_one_owner folder F c).
  - intros k. rewrite lookup_insert_None. intros [T Hne] Hk.
    rewrite <- (I4 k T Hk). apply Frame; [done|]. by apply Hk.
Qed.

Lemma reached_step folder child d tasks d' tasks' :
  reached d0 d tasks ->
  step_task folder child d tasks = inr (d', tasks') ->
  reached d0 d' tasks'.
Proof.
  intros R. pose proof R as (I1 & I2 & I3 & I4). unfold step_task.
  destruct (tasks !! folder) as [ph|] eqn:T; [|by intros [= <- <-]].
  assert (HF : folder ∈ exportFolders d0) by (apply I1; by eexists).
  pose proof (I2 folder ph T) as Own. destruct ph as [|pending|]; simpl in Own.
  - (* readdir *)
    destruct (d !! folder) as [[data|ch]|] eqn:D; try discriminate.
    intros [= <- <-]. apply (reached_update d tasks); try done.
    + exists ch. rewrite filter_pending_all. by rewrite <- Own.
    + intros c n C. rewrite (I3 folder Reading c n T C). simpl.
      rewrite decide_True; [done|]. apply elem_of_dom.
      rewrite (children_of_Dir d0 folder ch) in C by (by rewrite <- Own). by eexists.
  - destruct Own as (ch & D0 & Sub & D).
    pose proof (children_of_Dir _ _ _ D0) as CH.
    case_decide as Emp; [|case_decide as In].
    + (* rmdir *)
      unfold rmdir. rewrite D. subst pending.
      rewrite decide_True by apply filter_pending_none. intros [= <- <-].
      apply (reached_update d tasks); try done.
      * intros k Hne _. by rewrite lookup_delete_ne.
      * simpl. rewrite lookup_delete_eq. eauto.
      * intros c n C. rewrite lookup_delete_ne.
        -- by rewrite (I3 folder (Moving ∅) c n T C).
        -- intros Ec. eapply (child_not_folder folder c); [done| |first [by rewrite Ec | by rewrite <- Ec]].
           by eexists.
    + (* rename *)
      assert (exists n, ch !! child = Some n) as [n C].
      { apply elem_of_dom. set_solver. }
      assert (Hne : child <> folder).
      { intros Ec. eapply (child_not_folder folder child); [done| |first [by rewrite Ec | by rewrite <- Ec]].
        rewrite CH. by eexists. }
      intros Mv.
      assert (d' = <[child := n]>
                     (<[folder := Dir (delete child (filter (fun kv => kv.1 ∈ pending) ch))]> d)
              /\ tasks' = <[folder := Moving (pending ∖ {[child]})]> tasks) as [-> ->].
      { revert Mv. unfold rename_up. rewrite D.
        assert (filter (fun kv => kv.1 ∈ pending) ch !! child = Some n) as ->
          by (by apply map_lookup_filter_Some).
        destruct (d !! child) as [[?|old]|], n; try discriminate;
          try case_decide; try discriminate; by intros [= <- <-]. }
      apply (reached_update d tasks); try done.
      * intros k Hk Hc. rewrite lookup_insert_ne; [by rewrite lookup_insert_ne|].
        intros Ec. rewrite CH, <- Ec in Hc. congruence.
      * simpl. exists ch. split; [done|]. split; [set_solver|].
        rewrite lookup_insert_ne by done. rewrite lookup_insert_eq.
        by rewrite filter_pending_delete.
      * intros c m C'. simpl. destruct (decide (c = child)) as [->|Hc].
        -- rewrite lookup_insert_eq. rewrite decide_False by set_solver.
           rewrite CH in C'. congruence.
        -- rewrite lookup_insert_ne by done. rewrite lookup_insert_ne.
           ++ rewrite (I3 folder (Moving pending) c m T C'). simpl.
              destruct (decide (c ∈ pending)).
              ** rewrite decide_True by set_solver. done.
              ** rewrite decide_False by set_solver. done.
           ++ intros Ec. eapply (child_not_folder folder c); [done| |first [by rewrite Ec | by rewrite <- Ec]].
              by eexists.
    + by intros [= <- <-].
  - by intros [= <- <-].
Qed.

Lemma run_tasks_reached schedule : forall d tasks d',
  reached d0 d tasks ->
  run_tasks schedule d tasks = (d', Completed) ->
  exists tasks', reached d0 d' tasks' /\ all_removed tasks' = true.
Proof.
  induction schedule as [|[folder child] schedule IH]; intros d tasks d' R; simpl.
  - destruct (all_removed tasks) eqn:A; [|discriminate]. intros [= <-]. eauto.
  - destruct (all_removed tasks) eqn:A; [intros [= <-]; eauto|].
    destruct (step_task folder child d tasks) as [e|[d1 tasks1]] eqn:S; [discriminate|].
    apply IH. by eapply reached_step.
Qed.

Lemma reached_final d tasks :
  reached d0 d tasks -> all_removed tasks = true -> d = hoisted d0.
Proof.
  intros (I1 & I2 & I3 & I4) A. apply bool_decide_eq_true in A.
  assert (Rm : forall folder, folder ∈ exportFolders d0 -> tasks !! folder = Some Removed).
  { intros F [ph T]%I1. by rewrite T, (A F ph T). }
  apply map_eq. intros k. unfold hoisted.
  destruct (union_list (children_of d0 <$> exportFolders d0) !! k) as [n|] eqn:U.
  - rewrite (lookup_union_Some_l _ _ _ _ U).
    apply lookup_union_list_Some in U as (m & [F [-> HF]]%list_elem_of_fmap & C).
    by rewrite (I3 F Removed k n (Rm F HF) C).
  - rewrite lookup_union_r by done.
    assert (Hk : forall F, F ∈ exportFolders d0 -> children_of d0 F !! k = None).
    { intros F HF. eapply lookup_union_list_None in U; [done|].
      apply list_elem_of_fmap. eauto. }
    destruct (tasks !! k) as [ph|] eqn:T.
    + assert (HF : k ∈ exportFolders d0) by (apply I1; by eexists).
      rewrite (Rm k HF) in T. injection T as <-.
      destruct (I2 k Removed (Rm k HF)) as [-> _]. symmetry.
      apply map_lookup_filter_None. right. intros v _. simpl.
      apply elem_of_exportFolders in HF as [_ ->]. done.
    + rewrite (I4 k T Hk). symmetry. destruct (d0 !! k) as [v|] eqn:D.
      * apply map_lookup_filter_Some. split; [done|]. simpl.
        destruct (startsWith "Export-" k) eqn:S; [|done]. exfalso.
        assert (HF : k ∈ exportFolders d0) by (apply elem_of_exportFolders; by rewrite D).
        apply I1 in HF as [? ?]. congruence.
      * apply map_lookup_filter_None. by left.
Qed.

(** Whatever the order in which the file-system calls complete, a
    flattening without collisions that completes leaves [hoisted d0]. *)
Lemma flatten_completed schedule d' :
  run_tasks schedule d0 (start_tasks d0) = (d', Completed) -> d' = hoisted d0.
Proof.
  intros H. destruct (run_tasks_reached _ _ _ _ reached_start H) as (tasks' & R & A).
  by eapply reached_final.
Qed.

End Flatten.

(** ** The flattening completes *)

Lemma steps_app s1 s2 (d : dir) tasks d1 tasks1 :
  steps s1 d tasks = inr (d1, tasks1) ->
  steps (s1 ++ s2) d tasks = steps s2 d1 tasks1.
Proof.
  revert d tasks. induction s1 as [|[F c] s1 IH]; intros d tasks; simpl.
  - by intros [= <- <-].
  - destruct (step_task F c d tasks) as [e|[d' tasks']]; [discriminate|]. apply IH.
Qed.

Lemma step_task_idle F c (d : dir) tasks :
  all_removed tasks = true -> step_task F c d tasks = inr (d, tasks).
Proof.
  intros A%bool_decide_eq_true. unfold step_task.
  destruct (tasks !! F) as [ph|] eqn:T; [|done]. by rewrite (A F ph T).
Qed.

Lemma run_tasks_of_steps s : forall (d : dir) tasks d' tasks',
  steps s d tasks = inr (d', tasks') ->
  all_removed tasks' = true ->
  run_tasks s d tasks = (d', Completed).
Proof.
  induction s as [|[F c] s IH]; intros d tasks d' tasks'; simpl.
  - intros [= <- <-] ->. done.
  - destruct (all_removed tasks) eqn:A.
    + rewrite step_task_idle by done. intros S _. f_equal.
      clear IH. revert S. induction s as [|[F' c'] s IH]; simpl.
      * by intros [= <- _].
      * by rewrite step_task_idle.
    + destruct (step_task F c d tasks) as [e|[d1 tasks1]]; [discriminate|]. apply IH.
Qed.

Section Progress.

Variable d0 : dir.
Hypothesis free : no_collision d0.

#[local] Abbreviation clash_free := (no_collision_no_clash d0 free).

Lemma steps_renames F ch cs : forall (d : dir) tasks (pending : gset string),
  NoDup cs ->
  pending = list_to_set cs ->
  d0 !! F = Some (Dir ch) ->
  reached d0 d tasks ->
  tasks !! F = Some (Moving pending) ->
  exists d', steps ((fun c => (F, c)) <$> cs) d tasks = inr (d', <[F := Moving ∅]> tasks) /\
             reached d0 d' (<[F := Moving ∅]> tasks).
Proof.
  induction cs as [|c cs IH]; intros d tasks pending N Hp D0 R T; simpl.
  - exists d. simpl in Hp. subst pending. rewrite insert_id by done. done.
  - apply NoDup_cons in N as [Nc N].
    assert (Hc : c ∈ pending) by (subst pending; set_solver).
    assert (Hrest : pending ∖ {[c]} = list_to_set cs) by (subst pending; set_solver).
    pose proof R as (I1 & I2 & I3 & I4).
    destruct (I2 F _ T) as (ch' & D0' & Sub & D).
    assert (ch' = ch) as -> by congruence.
    assert (exists n, ch !! c = Some n) as [n C] by (apply elem_of_dom; set_solver).
    assert (exists d1, step_task F c d tasks
                       = inr (d1, <[F := Moving (list_to_set cs)]> tasks)) as [d1 S].
    { unfold step_task. rewrite T. rewrite decide_False by set_solver.
      rewrite decide_True by done. unfold rename_up. rewrite D.
      assert (filter (fun kv => kv.1 ∈ pending) ch !! c = Some n) as ->
        by (by apply map_lookup_filter_Some).
      rewrite (I3 F _ c n T) by (by rewrite (children_of_Dir _ _ _ D0)).
      simpl. rewrite decide_True by done.
      rewrite (child_not_top d0 F c free)
        by (first [by apply I1; eexists | rewrite (children_of_Dir _ _ _ D0); by eexists]).
      rewrite Hrest. eauto. }
    rewrite S. pose proof (reached_step d0 clash_free _ _ _ _ _ _ R S) as R'.
    destruct (IH _ _ (list_to_set cs) N eq_refl D0 R' (lookup_insert_eq _ _ _))
      as (d' & St & Rd). rewrite insert_insert_eq in St, Rd. eauto.
Qed.

Lemma steps_folder F ch (d : dir) tasks :
  d0 !! F = Some (Dir ch) ->
  reached d0 d tasks ->
  tasks !! F = Some Reading ->
  exists d', steps (folder_schedule d0 F) d tasks = inr (d', <[F := Removed]> tasks) /\
             reached d0 d' (<[F := Removed]> tasks).
Proof.
  intros D0 R T. pose proof R as (I1 & I2 & I3 & I4).
  unfold folder_schedule. rewrite (children_of_Dir _ _ _ D0).
  assert (S1 : step_task F "" d tasks = inr (d, <[F := Moving (dom ch)]> tasks)).
  { unfold step_task. rewrite T. pose proof (I2 F _ T) as E. simpl in E. by rewrite E, D0. }
  cbn [steps]. rewrite S1.
  pose proof (reached_step d0 clash_free _ _ _ _ _ _ R S1) as R1.
  destruct (steps_renames F ch (readdir ch) d (<[F := Moving (dom ch)]> tasks) (dom ch))
    as (d1 & St & R2); try done.
  - apply NoDup_fst_map_to_list.
  - apply set_eq. intros k. rewrite elem_of_list_to_set, elem_of_readdir. apply elem_of_dom.
  - apply lookup_insert_eq.
  - rewrite insert_insert_eq in St, R2. rewrite (steps_app _ _ _ _ _ _ St).
    pose proof R2 as (J1 & J2 & J3 & J4).
    destruct (J2 F _ (lookup_insert_eq _ _ _)) as (ch' & D0' & _ & D1). simplify_eq.
    assert (S3 : step_task F "" d1 (<[F := Moving ∅]> tasks)
                 = inr (delete F d1, <[F := Removed]> tasks)).
    { unfold step_task. rewrite lookup_insert_eq. rewrite decide_True by done.
      unfold rmdir. rewrite D1. rewrite decide_True by apply filter_pending_none.
      by rewrite insert_insert_eq. }
    simpl. rewrite S3. eexists. split; [done|].
    by apply (reached_step d0 clash_free _ _ _ _ _ _ R2 S3).
Qed.

Lemma steps_folders fs : forall (d : dir) tasks,
  NoDup fs ->
  (forall F, F ∈ fs -> tasks !! F = Some Reading /\ exists ch, d0 !! F = Some (Dir ch)) ->
  reached d0 d tasks ->
  exists d' tasks', steps (fs ≫= folder_schedule d0) d tasks = inr (d', tasks') /\
                    reached d0 d' tasks' /\
                    (forall F, F ∈ fs -> tasks' !! F = Some Removed) /\
                    (forall F, F ∉ fs -> tasks' !! F = tasks !! F).
Proof.
  induction fs as [|F fs IH]; intros d tasks N H R.
  - exists d, tasks. split_and!; try done. by intros F ?%elem_of_nil.
  - rewrite bind_cons. apply NoDup_cons in N as [NF N].
    destruct (H F) as [T [ch D0]]; [left|].
    destruct (steps_folder F ch d tasks D0 R T) as (d1 & St & R1).
    rewrite (steps_app _ _ _ _ _ _ St).
    destruct (IH d1 (<[F := Removed]> tasks) N) as (d2 & tasks2 & St2 & R2 & Rm & Keep);
      [|done|].
    + intros F' HF'. rewrite lookup_insert_ne by (intros ->; done). apply H. by right.
    + exists d2, tasks2. split_and!; try done.
      * intros F' [->|HF']%elem_of_cons; [|by apply Rm].
        rewrite Keep by done. apply lookup_insert_eq.
      * intros F' HF'%not_elem_of_cons. destruct HF' as [Hne HF'].
        rewrite Keep by done. by apply lookup_insert_ne.
Qed.

(** When every entry named like an export folder is a directory and no
    two moves collide, the callbacks run one after the other complete, and
    they leave [hoisted d0]. *)
Lemma flatten_completes :
  (forall F, F ∈ exportFolders d0 -> exists ch, d0 !! F = Some (Dir ch)) ->
  run_tasks (sequential_schedule d0) d0 (start_tasks d0) = (hoisted d0, Completed).
Proof.
  intros Dirs.
  destruct (steps_folders (exportFolders d0) d0 (start_tasks d0))
    as (d' & tasks' & St & R & Rm & _).
  - apply NoDup_exportFolders.
  - intros F HF. split; [|by apply Dirs]. rewrite start_tasks_lookup. by rewrite decide_True.
  - by apply reached_start.
  - assert (A : all_removed tasks' = true).
    { apply bool_decide_eq_true. intros F ph T. destruct R as (I1 & _).
      assert (HF : F ∈ exportFolders d0) by (apply I1; by eexists).
      rewrite (Rm F HF) in T. congruence. }
    unfold sequential_schedule. rewrite (run_tasks_of_steps _ _ _ _ _ St A). f_equal.
    by eapply reached_final.
Qed.

End Progress.

(** A file whose name starts with "Export-" keeps the flattening from
    completing. *)
Lemma export_file_blocks F : forall (schedule : list (string * string)) (d : dir) tasks,
  tasks !! F = Some Reading ->
  (exists data, d !! F = Some (File data)) ->
  (run_tasks schedule d tasks).2 <> Completed.
Proof.
  induction schedule as [|[G c] schedule IH]; intros d tasks T [data D];
    cbn [run_tasks].
  all: assert (A : all_removed tasks = false)
    by (apply bool_decide_eq_false; intros H; by specialize (H F _ T)).
  all: rewrite A; try done.
  destruct (step_task G c d tasks) as [e|[d1 tasks1]] eqn:S; [done|].
  apply IH; revert S; unfold step_task.
  - destruct (decide (G = F)) as [->|Hne].
    { rewrite T, D. discriminate. }
    destruct (tasks !! G) as [[|pending|]|]; try (by intros [= <- <-]).
    + destruct (d !! G) as [[?|?]|]; intros [= <- <-]. by rewrite lookup_insert_ne.
    + repeat case_match; intros [= <- <-]; by rewrite ?lookup_insert_ne.
  - destruct (decide (G = F)) as [->|Hne].
    { rewrite T, D. discriminate. }
    destruct (tasks !! G) as [[|pending|]|]; try (intros [= <- <-]; by eauto).
    + destruct (d !! G) as [[?|?]|]; intros [= <- <-]. eauto.
    + case_decide; [|case_decide].
      * unfold rmdir. repeat case_match; intros [= <- <-]; simplify_eq. exists data.
        by rewrite lookup_delete_ne.
      * unfold rename_up. destruct (decide (c = F)) as [->|Hc].
        -- rewrite D. repeat case_match; intros [= <- <-]; simplify_eq;
             eexists; apply lookup_insert_eq.
        -- repeat case_match; intros [= <- <-]; simplify_eq; exists data;
             by rewrite lookup_insert_ne, lookup_insert_ne.
      * intros [= <- <-]. eauto.
Qed.

(** * Paths in the destination *)

Lemma is_prefix_cons x p y q :
  is_prefix (x :: p) (y :: q) = bool_decide (x = y) && is_prefix p q.
Proof.
  simpl. destruct (String.eqb_spec x y);
    [by rewrite bool_decide_true | by rewrite bool_decide_false].
Qed.

Lemma is_prefix_refl p : is_prefix p p = true.
Proof. induction p as [|x p IH]; [done|]. rewrite is_prefix_cons, IH. by rewrite bool_decide_true. Qed.

Lemma not_prefix_ne p q : is_prefix p q = false -> p <> q.
Proof. intros H ->. by rewrite is_prefix_refl in H. Qed.

Lemma remove_nil (d : dir) : remove [] d = d.
Proof. done. Qed.

Lemma remove_top x (d : dir) :
  remove [x] d = match d !! x with Some (File _) => delete x d | _ => d end.
Proof. unfold remove. simpl. by destruct (d !! x) as [[?|?]|]. Qed.

Lemma unlink_deep x y p (d : dir) :
  unlink (x :: y :: p) d =
  match d !! x with
  | None => inl (SystemError "ENOENT")
  | Some (File _) => inl (SystemError "ENOTDIR")
  | Some (Dir c) =>
      match unlink (y :: p) c with
      | inl e => inl e
      | inr c' => inr (<[x := Dir c']> d)
      end
  end.
Proof. done. Qed.

Lemma remove_deep x y p (d : dir) :
  remove (x :: y :: p) d =
  match d !! x with Some (Dir c) => <[x := Dir (remove (y :: p) c)]> d | _ => d end.
Proof.
  unfold remove. rewrite unlink_deep. destruct (d !! x) as [[?|c]|] eqn:D; try done.
  destruct (unlink (y :: p) c); [symmetry; by apply insert_id | done].
Qed.

Lemma remove_empty p : remove p (∅ : dir) = ∅.
Proof. destruct p as [|x [|y p]]; [done|..]; by rewrite ?remove_top, ?remove_deep, lookup_empty. Qed.

Lemma unlink_remove p (d d' : dir) : unlink p d = inr d' -> d' = remove p d.
Proof. unfold remove. by intros ->. Qed.

Lemma makeDir_cons x p (d : dir) :
  makeDir (x :: p) d =
  match d !! x with
  | Some (File _) => inl FILE_IN_THE_WAY
  | Some (Dir c) => on_success (fun c' => <[x := Dir c']> d) (makeDir p c)
  | None => on_success (fun c' => <[x := Dir c']> d) (makeDir p ∅)
  end.
Proof. simpl. destruct (d !! x) as [[?|c]|]; try done; by destruct (makeDir p _). Qed.

Lemma writeFileTo_top x data (d : dir) :
  writeFileTo [x] data d =
  match d !! x with Some (Dir _) => inr d | _ => inr (<[x := File data]> d) end.
Proof. done. Qed.

Lemma writeFileTo_deep x y p data (d : dir) :
  writeFileTo (x :: y :: p) data d =
  match d !! x with
  | Some (File _) => inl (match p with [] => SystemError "ENOTDIR" | _ => FILE_IN_THE_WAY end)
  | Some (Dir c) => on_success (fun c' => <[x := Dir c']> d) (writeFileTo (y :: p) data c)
  | None => on_success (fun c' => <[x := Dir c']> d) (writeFileTo (y :: p) data ∅)
  end.
Proof.
  change (writeFileTo (x :: y :: p) data d) with
    (match d !! x with
     | Some (File _) => inl (match p with [] => SystemError "ENOTDIR" | _ => FILE_IN_THE_WAY end)
     | Some (Dir c) =>
         match writeFileTo (y :: p) data c with
         | inl e => inl e
         | inr c' => inr (<[x := Dir c']> d)
         end
     | None =>
         match writeFileTo (y :: p) data ∅ with
         | inl e => inl e
         | inr c' => inr (<[x := Dir c']> d)
         end
     end).
  destruct (d !! x) as [[?|c]|]; try done; by destruct (writeFileTo (y :: p) data _).
Qed.

Ltac simpl_lookup :=
  repeat first
    [ rewrite lookup_insert_eq | rewrite lookup_delete_eq
    | rewrite lookup_insert_ne by done | rewrite lookup_delete_ne by done
    | rewrite lookup_empty ].

Ltac use_lookups :=
  repeat match goal with
         | H : ?d !! ?x = _ |- context [?d !! ?x] => rewrite H
         end.

Ltac step_remove :=
  repeat (progress (rewrite ?remove_top, ?remove_deep; simpl_lookup; use_lookups)).

(** Unlinks of whatever paths take effect in any order. *)
Lemma remove_comm p : forall q (d : dir), remove p (remove q d) = remove q (remove p d).
Proof.
  induction p as [|x p IH]; intros q d; [done|].
  destruct q as [|y q]; [done|].
  destruct (decide (x = y)) as [->|Hne].
  - destruct p as [|x2 p], q as [|y2 q]; [done|..];
      destruct (d !! y) as [[?|c]|] eqn:D; step_remove; try done.
    rewrite !insert_insert_eq. by rewrite IH.
  - destruct p as [|x2 p], q as [|y2 q];
      destruct (d !! x) as [[?|?]|] eqn:Dx, (d !! y) as [[?|?]|] eqn:Dy;
      step_remove; try done.
    + apply delete_delete.
    + by rewrite delete_insert_ne.
    + by rewrite delete_insert_ne.
    + by apply insert_insert_ne.
Qed.

Lemma remove_all_perm ps qs (d : dir) : ps ≡ₚ qs -> remove_all ps d = remove_all qs d.
Proof.
  intros H. unfold remove_all. apply (foldr_permutation (=) remove d); [|done].
  intros j1 a1 j2 a2 b _ _ _. apply remove_comm.
Qed.

(** ** Extraction and unlinks that do not meet *)

Lemma makeDir_remove p : forall q (d : dir),
  is_prefix p q = false ->
  makeDir q (remove p d) = on_success (remove p) (makeDir q d).
Proof.
  induction p as [|x p IH]; intros q d H; [done|].
  destruct q as [|y q]; [done|].
  rewrite is_prefix_cons in H. destruct (decide (x = y)) as [->|Hne].
  - rewrite bool_decide_true in H by done. simpl in H.
    destruct p as [|x2 p]; [done|].
    rewrite remove_deep, !makeDir_cons. destruct (d !! y) as [[?|c]|] eqn:D; use_lookups.
    + done.
    + simpl_lookup. rewrite IH by done.
      destruct (makeDir q c) as [e|c']; simpl; [done|].
      rewrite insert_insert_eq. step_remove. by rewrite insert_insert_eq.
    + pose proof (IH q ∅ H) as E. rewrite remove_empty in E.
      destruct (makeDir q ∅) as [e|c']; simpl in *; [done|].
      step_remove. injection E as E. by rewrite <- E, insert_insert_eq.
  - clear H IH. rewrite !makeDir_cons.
    assert (L : remove (x :: p) d !! y = d !! y).
    { destruct p as [|x2 p]; destruct (d !! x) as [[?|?]|] eqn:Dx; step_remove; done. }
    rewrite L. clear L.
    assert (R : forall n, remove (x :: p) (<[y := n]> d) = <[y := n]> (remove (x :: p) d)).
    { intros n. destruct p as [|x2 p]; destruct (d !! x) as [[?|?]|] eqn:Dx;
        step_remove; try done; [by rewrite delete_insert_ne | by rewrite insert_insert_ne]. }
    destruct (d !! y) as [[?|c]|]; [done|..];
      destruct (makeDir q _) as [e|c']; simpl; by rewrite ?R.
Qed.

Lemma writeFileTo_remove p data : forall q (d : dir),
  is_prefix p q = false ->
  writeFileTo q data (remove p d) = on_success (remove p) (writeFileTo q data d).
Proof.
  induction p as [|x p IH]; intros q d H; [done|].
  destruct q as [|y q]; [done|].
  rewrite is_prefix_cons in H. destruct (decide (x = y)) as [->|Hne].
  - rewrite bool_decide_true in H by done. simpl in H.
    destruct p as [|x2 p]; [done|].
    destruct q as [|y2 q].
    + rewrite remove_deep, !writeFileTo_top.
      destruct (d !! y) as [[?|c]|] eqn:D; use_lookups; simpl_lookup; simpl; step_remove; done.
    + rewrite remove_deep, !writeFileTo_deep.
      destruct (d !! y) as [[?|c]|] eqn:D; use_lookups.
      * done.
      * simpl_lookup. rewrite IH by done.
        destruct (writeFileTo (y2 :: q) data c) as [e|c']; simpl; [done|].
        rewrite insert_insert_eq. step_remove. by rewrite insert_insert_eq.
      * pose proof (IH (y2 :: q) ∅ H) as E. rewrite remove_empty in E.
        destruct (writeFileTo (y2 :: q) data ∅) as [e|c']; simpl in *; [done|].
        step_remove. injection E as E. by rewrite <- E, insert_insert_eq.
  - clear H IH.
    assert (L : remove (x :: p) d !! y = d !! y).
    { destruct p as [|x2 p]; destruct (d !! x) as [[?|?]|] eqn:Dx; step_remove; done. }
    assert (R : forall n, remove (x :: p) (<[y := n]> d) = <[y := n]> (remove (x :: p) d)).
    { intros n. destruct p as [|x2 p]; destruct (d !! x) as [[?|?]|] eqn:Dx;
        step_remove; try done; [by rewrite delete_insert_ne | by rewrite insert_insert_ne]. }
    destruct q as [|y2 q].
    + rewrite !writeFileTo_top, L. destruct (d !! y) as [[?|c]|]; simpl; by rewrite ?R.
    + rewrite !writeFileTo_deep, L. destruct (d !! y) as [[?|c]|]; [done|..];
        destruct (writeFileTo (y2 :: q) data _) as [e|c']; simpl; by rewrite ?R.
Qed.

Lemma extract_entry_remove e p (d : dir) :
  is_prefix p (canonical (entryName e)) = false ->
  extract_entry e (remove p d) = on_success (remove p) (extract_entry e d).
Proof.
  intros H. unfold extract_entry. destruct (isDirectory (entryName e)).
  - by apply makeDir_remove.
  - by apply writeFileTo_remove.
Qed.

Lemma extract_entry_remove_all e ps (d : dir) :
  Forall (fun p => is_prefix p (canonical (entryName e)) = false) ps ->
  extract_entry e (remove_all ps d) = on_success (remove_all ps) (extract_entry e d).
Proof.
  induction 1 as [|p ps Hp _ IH]; simpl.
  - by destruct (extract_entry e d).
  - rewrite extract_entry_remove by done. rewrite IH. by destruct (extract_entry e d).
Qed.

(** ** What is found at a path after an operation *)

Lemma lookup_node_top x (d : dir) : lookup_node [x] d = d !! x.
Proof. simpl. by destruct (d !! x). Qed.

Lemma lookup_node_deep x y p (d : dir) :
  lookup_node (x :: y :: p) d =
  match d !! x with Some (Dir c) => lookup_node (y :: p) c | _ => None end.
Proof.
  change (lookup_node (x :: y :: p) d) with
    (match d !! x with
     | None => None
     | Some n => match n with Dir c => lookup_node (y :: p) c | File _ => None end
     end).
  by destruct (d !! x) as [[?|?]|].
Qed.

Lemma lookup_node_empty p : p <> [] -> lookup_node p (∅ : dir) = None.
Proof. destruct p as [|x p]; [done|]. intros _. simpl. by rewrite lookup_empty. Qed.

Ltac step_lookup :=
  repeat (progress (rewrite ?lookup_node_top, ?lookup_node_deep; simpl_lookup; use_lookups)).

Lemma lookup_remove_other q : forall p (d : dir),
  is_prefix p q = false -> lookup_node p (remove q d) = lookup_node p d.
Proof.
  induction q as [|y q IH]; intros p d H; [done|].
  destruct p as [|x p]; [done|]. rewrite is_prefix_cons in H.
  destruct (decide (x = y)) as [->|Hne].
  - rewrite bool_decide_true in H by done. simpl in H.
    destruct p as [|x2 p]; [done|].
    destruct q as [|y2 q].
    + destruct (d !! y) as [[?|c]|] eqn:D; step_remove; step_lookup; done.
    + destruct (d !! y) as [[?|c]|] eqn:D; step_remove; step_lookup; try done.
      by apply IH.
  - clear IH H. destruct q as [|y2 q], p as [|x2 p];
      destruct (d !! y) as [[?|c]|] eqn:D; step_remove; step_lookup; done.
Qed.

Ltac close_iff :=
  split; [intros ? | intros [? ?]]; repeat split;
  repeat match goal with H : _ /\ _ |- _ => destruct H end;
  first [done | congruence].

Lemma lookup_remove_file q : forall p (d : dir) z,
  lookup_node p (remove q d) = Some (File z) <-> p <> q /\ lookup_node p d = Some (File z).
Proof.
  induction q as [|y q IH]; intros p d z.
  - rewrite remove_nil. split; [|by intros [_ ?]]. intros H. split; [|done].
    by intros ->.
  - destruct p as [|x p]; [split; [done | by intros [_ ?]]|].
    destruct (decide (x = y)) as [->|Hne].
    + destruct q as [|y2 q], p as [|x2 p];
        destruct (d !! y) as [[?|c]|] eqn:D; step_remove; step_lookup; rewrite ?IH; close_iff.
    + destruct q as [|y2 q], p as [|x2 p];
        destruct (d !! y) as [[?|c]|] eqn:D; step_remove; step_lookup; close_iff.
Qed.

Lemma lookup_remove_self q (d : dir) z :
  lookup_node q d = Some (File z) -> lookup_node q (remove q d) = None.
Proof.
  revert d. induction q as [|y q IH]; intros d; [done|].
  destruct q as [|y2 q]; destruct (d !! y) as [[?|c]|] eqn:D;
    step_remove; step_lookup; try done. apply IH.
Qed.

Lemma lookup_remove_all_file ps p (d : dir) z :
  lookup_node p (remove_all ps d) = Some (File z) <-> (p ∉ ps) /\ lookup_node p d = Some (File z).
Proof.
  induction ps as [|q ps IH]; simpl.
  - split; [intros ?; split; [apply not_elem_of_nil | done] | by intros [_ ?]].
  - rewrite lookup_remove_file, IH, not_elem_of_cons. tauto.
Qed.

Lemma lookup_remove_none q : forall p (d : dir),
  lookup_node p d = None -> lookup_node p (remove q d) = None.
Proof.
  induction q as [|y q IH]; intros p d; [done|].
  destruct p as [|x p]; [done|].
  destruct (decide (x = y)) as [->|Hne].
  - destruct q as [|y2 q], p as [|x2 p];
      destruct (d !! y) as [[?|c]|] eqn:D; step_remove; step_lookup; try done. apply IH.
  - destruct q as [|y2 q], p as [|x2 p];
      destruct (d !! y) as [[?|c]|] eqn:D; step_remove; step_lookup; done.
Qed.

Lemma lookup_remove_all_gone ps p (d : dir) z :
  p ∈ ps -> lookup_node p d = Some (File z) -> lookup_node p (remove_all ps d) = None.
Proof.
  induction ps as [|q ps IH]; [by intros ?%elem_of_nil|].
  intros Hp Hd. simpl. destruct (decide (p ∈ ps)) as [Hin|Hout].
  - apply lookup_remove_none. by apply IH.
  - apply elem_of_cons in Hp as [->|?]; [|done].
    eapply lookup_remove_self. apply lookup_remove_all_file. eauto.
Qed.

Lemma makeDir_lookup_other q : forall p (d d' : dir),
  makeDir q d = inr d' -> is_prefix p q = false -> lookup_node p d' = lookup_node p d.
Proof.
  induction q as [|y q IH]; intros p d d'; [by intros [= <-]|].
  destruct p as [|x p]; [done|]. rewrite makeDir_cons, is_prefix_cons.
  destruct (decide (x = y)) as [->|Hne].
  - rewrite bool_decide_true by done. cbn [andb]. destruct p as [|x2 p]; [done|].
    destruct (d !! y) as [[?|c]|] eqn:D; [done|..];
      destruct (makeDir q _) as [e|c'] eqn:M; cbn [on_success]; intros [= <-] H; step_lookup.
    + by eapply IH.
    + rewrite (IH _ _ _ M H). by apply lookup_node_empty.
  - intros M _. destruct (d !! y) as [[?|c]|] eqn:D; [done|..];
      destruct (makeDir q _) as [e|c']; cbn [on_success] in *; simplify_eq;
      destruct p as [|x2 p]; step_lookup; done.
Qed.

Lemma makeDir_lookup_prefix q : forall p (d d' : dir),
  makeDir q d = inr d' -> is_prefix p q = true -> exists c, lookup_node p d' = Some (Dir c).
Proof.
  induction q as [|y q IH]; intros p d d'.
  - intros [= <-]. destruct p; [|done]. intros _. by exists d.
  - destruct p as [|x p]; [intros _ _; by exists d'|].
    rewrite makeDir_cons, is_prefix_cons. intros M [<-%bool_decide_eq_true H]%andb_true_iff.
    destruct (d !! x) as [[?|c]|] eqn:D; [done|..];
      destruct (makeDir q _) as [e|c'] eqn:Mq; cbn [on_success] in *; simplify_eq;
      (destruct p as [|x2 p]; step_lookup; [by eexists | by eapply IH]).
Qed.

Lemma writeFileTo_lookup_other data q : forall p (d d' : dir),
  writeFileTo q data d = inr d' -> is_prefix p q = false -> lookup_node p d' = lookup_node p d.
Proof.
  induction q as [|y q IH]; intros p d d'; [by intros [= <-]|].
  destruct p as [|x p]; [done|]. rewrite is_prefix_cons.
  destruct (decide (x = y)) as [->|Hne].
  - rewrite bool_decide_true by done. cbn [andb]. destruct p as [|x2 p]; [done|].
    destruct q as [|y2 q].
    + rewrite writeFileTo_top. intros M _.
      destruct (d !! y) as [[?|c]|] eqn:D; cbn [on_success] in *; simplify_eq; step_lookup; done.
    + rewrite writeFileTo_deep.
      destruct (d !! y) as [[?|c]|] eqn:D; [done|..];
        destruct (writeFileTo (y2 :: q) data _) as [e|c'] eqn:M; cbn [on_success]; intros [= <-] H;
        step_lookup.
      * by eapply IH.
      * rewrite (IH _ _ _ M H). by apply lookup_node_empty.
  - intros M _. destruct q as [|y2 q].
    + rewrite writeFileTo_top in M.
      destruct (d !! y) as [[?|c]|] eqn:D; cbn [on_success] in *; simplify_eq;
        destruct p as [|x2 p]; step_lookup; done.
    + rewrite writeFileTo_deep in M.
      destruct (d !! y) as [[?|c]|] eqn:D; [done|..];
        destruct (writeFileTo (y2 :: q) data _) as [e|c']; cbn [on_success] in *; simplify_eq;
        destruct p as [|x2 p]; step_lookup; done.
Qed.

Lemma writeFileTo_lookup_above data q : forall p (d d' : dir),
  writeFileTo q data d = inr d' -> is_prefix p q = true -> p <> q ->
  exists c, lookup_node p d' = Some (Dir c).
Proof.
  induction q as [|y q IH]; intros p d d'.
  - intros [= <-]. destruct p; [|done]. by intros _ ?.
  - destruct p as [|x p]; [intros _ _ _; by exists d'|].
    rewrite is_prefix_cons. intros M [<-%bool_decide_eq_true H]%andb_true_iff Hne.
    destruct q as [|y2 q].
    + destruct p; [done | by destruct p].
    + rewrite writeFileTo_deep in M.
      destruct (d !! x) as [[?|c]|] eqn:D; [done|..];
        destruct (writeFileTo (y2 :: q) data _) as [e|c'] eqn:Mq; cbn [on_success] in *; simplify_eq;
        (destruct p as [|x2 p]; step_lookup; [by eexists | eapply IH; [done..|congruence]]).
Qed.

Lemma writeFileTo_lookup_target data q : forall (d d' : dir),
  writeFileTo q data d = inr d' -> q <> [] ->
  lookup_node q d' = match lookup_node q d with
                     | Some (Dir c) => Some (Dir c)
                     | _ => Some (File data)
                     end.
Proof.
  induction q as [|y q IH]; intros d d' M Hq; [done|]. clear Hq.
  destruct q as [|y2 q].
  - rewrite writeFileTo_top in M.
    destruct (d !! y) as [[?|c]|] eqn:D; cbn [on_success] in *; simplify_eq; step_lookup; done.
  - rewrite writeFileTo_deep in M.
    destruct (d !! y) as [[?|c]|] eqn:D; [done|..];
      destruct (writeFileTo (y2 :: q) data _) as [e|c'] eqn:Mq; cbn [on_success] in *; simplify_eq; step_lookup.
    + by eapply IH.
    + rewrite (IH _ _ Mq) by done. by rewrite lookup_node_empty.
Qed.

(** ** Extraction with nothing in flight *)

Lemma settle_due_nil (d : dir) err :
  settle_due [] d err = {| tree := d; unlinks := []; failed_unlink := err |}.
Proof. done. Qed.

Lemma extractAllTo_quiet entries : forall (d : dir) s,
  extractAllTo entries (quiet d) = (s, None) <->
  exists d', s = quiet d' /\ extract_all entries d = inr d'.
Proof.
  induction entries as [|e entries IH]; intros d s; simpl.
  - split; [intros [= <-]; by exists d | intros (d' & -> & [= <-]); done].
  - destruct (extract_entry e d) as [err|d1]; simpl.
    + split; [done | by intros (d' & _ & ?)].
    + apply IH.
Qed.

Lemma outer_spec entries (d1 : dir) :
  extract_all entries ∅ = inr d1 -> outer entries = d1.
Proof.
  intros H. unfold outer.
  destruct (extractAllTo entries (quiet ∅)) as [s err] eqn:E.
  assert (extractAllTo entries (quiet ∅) = (quiet d1, None)) as E'
    by (apply extractAllTo_quiet; eauto).
  rewrite E in E'. by injection E' as -> _.
Qed.

Lemma extract_all_app es1 es2 (d : dir) :
  extract_all (es1 ++ es2) d =
  match extract_all es1 d with inl err => inl err | inr d' => extract_all es2 d' end.
Proof.
  revert d. induction es1 as [|e es1 IH]; intros d; simpl; [done|].
  by destruct (extract_entry e d).
Qed.

Lemma extract_entry_lookup_other e p (d d' : dir) :
  extract_entry e d = inr d' -> is_prefix p (canonical (entryName e)) = false ->
  lookup_node p d' = lookup_node p d.
Proof.
  unfold extract_entry. destruct (isDirectory _).
  - apply makeDir_lookup_other.
  - apply writeFileTo_lookup_other.
Qed.

Lemma clear_of_spec ps entries :
  clear_of ps entries = true <->
  forall e p, e ∈ entries -> p ∈ ps -> is_prefix p (canonical (entryName e)) = false.
Proof.
  unfold clear_of. rewrite forallb_forall. split.
  - intros H e p He Hp. apply list_elem_of_In in He, Hp.
    specialize (H e He). rewrite forallb_forall in H. by apply negb_true_iff, H.
  - intros H e He. apply forallb_forall. intros p Hp. apply negb_true_iff.
    apply H; by apply list_elem_of_In.
Qed.

Lemma extract_all_lookup_other es p : forall (d d' : dir),
  extract_all es d = inr d' ->
  (forall e, e ∈ es -> is_prefix p (canonical (entryName e)) = false) ->
  lookup_node p d' = lookup_node p d.
Proof.
  induction es as [|e es IH]; intros d d'; simpl; [by intros [= <-]|].
  destruct (extract_entry e d) as [err|d1] eqn:E; [done|]. intros H Hp.
  rewrite (IH _ _ H) by (intros; apply Hp; by right).
  eapply extract_entry_lookup_other; [done|]. apply Hp. left.
Qed.

(** ** Extraction with unlinks in flight *)

Lemma remove_all_app ps qs (d : dir) :
  remove_all (ps ++ qs) d = remove_all ps (remove_all qs d).
Proof. unfold remove_all. by rewrite foldr_app. Qed.

Lemma settle_due_failed inflight : forall (d : dir) err,
  failed_unlink (settle_due inflight d err) = None -> err = None.
Proof.
  induction inflight as [|[[|k] p] inflight IH]; intros d err; simpl; [done|..].
  - destruct (unlink p d) as [e|d']; [|apply IH].
    intros H%IH. by destruct err.
  - apply IH.
Qed.

(** When no unlink has failed, the unlinks that were due have removed
    their files, and the others are still in flight. *)
Lemma settle_due_spec inflight : forall (d : dir) err,
  failed_unlink (settle_due inflight d err) = None ->
  exists fired,
    tree (settle_due inflight d err) = remove_all fired d /\
    fired ++ (unlinks (settle_due inflight d err)).*2 ≡ₚ inflight.*2.
Proof.
  induction inflight as [|[[|k] p] inflight IH]; intros d err; simpl.
  - intros _. by exists [].
  - destruct (unlink p d) as [e|d'] eqn:U.
    + intros H. apply settle_due_failed in H. by destruct err.
    + intros H. destruct (IH _ _ H) as (fired & T & P). exists (fired ++ [p]). split.
      * rewrite T, remove_all_app. simpl. by rewrite (unlink_remove _ _ _ U).
      * rewrite <- P. rewrite <- app_assoc. simpl. by rewrite <- Permutation_middle.
  - intros H. destruct (IH _ _ H) as (fired & T & P). exists fired. split; [done|].
    rewrite <- Permutation_middle. by rewrite P.
Qed.

Lemma settle_all_spec inflight : forall (d d' : dir) err,
  settle_all inflight d err = (d', None) ->
  err = None /\ d' = remove_all (rev inflight.*2) d.
Proof.
  induction inflight as [|[k p] inflight IH]; intros d d' err; simpl.
  - by intros [= <- ->].
  - destruct (unlink p d) as [e|d1] eqn:U.
    + intros [? _]%IH. by destruct err.
    + intros [-> ->]%IH. split; [done|].
      rewrite remove_all_app. simpl. by rewrite (unlink_remove _ _ _ U).
Qed.

Lemma extractAllTo_failed es : forall s s' err,
  extractAllTo es s = (s', err) -> failed_unlink s' = None -> failed_unlink s = None.
Proof.
  induction es as [|e es IH]; intros s s' err; simpl; [by intros [= <- _]|].
  destruct (extract_entry e _) as [err'|d'] eqn:E.
  - intros [= <- _] H. by apply settle_due_failed in H.
  - intros H Hf. apply IH in H; [|done]. simpl in H. by apply settle_due_failed in H.
Qed.

Lemma clear_of_app ps qs es :
  clear_of (ps ++ qs) es = true <-> clear_of ps es = true /\ clear_of qs es = true.
Proof.
  rewrite !clear_of_spec. setoid_rewrite elem_of_app. naive_solver.
Qed.

Lemma clear_of_perm ps qs es : ps ≡ₚ qs -> clear_of ps es = true -> clear_of qs es = true.
Proof.
  rewrite !clear_of_spec. intros P H e p He Hp. apply H; [done|]. by rewrite P.
Qed.

Lemma clear_of_cons ps e es :
  clear_of ps (e :: es) = true <->
  Forall (fun p => is_prefix p (canonical (entryName e)) = false) ps /\ clear_of ps es = true.
Proof.
  unfold clear_of. simpl. rewrite andb_true_iff, forallb_forall, Forall_forall.
  split; intros [H ?]; (split; [|done]); intros p Hp.
  - apply negb_true_iff, H. by apply list_elem_of_In.
  - apply negb_true_iff, H. by apply list_elem_of_In.
Qed.

(** Entries that stay clear of the unlinks in flight are extracted as if
    nothing were in flight: the tree is the one of the plain extraction
    with the files unlinked so far removed. *)
Lemma extractAllTo_racing es : forall s s' (D : dir) F,
  extractAllTo es s = (s', None) ->
  failed_unlink s' = None ->
  tree s = remove_all F D ->
  clear_of (F ++ (unlinks s).*2) es = true ->
  exists D' F',
    extract_all es D = inr D' /\ tree s' = remove_all F' D' /\
    F' ++ (unlinks s').*2 ≡ₚ F ++ (unlinks s).*2.
Proof.
  induction es as [|e es IH]; intros s s' D F.
  - intros [= <-] Hf T _. by exists D, F.
  - intros H Hf T C. pose proof (extractAllTo_failed _ _ _ _ H Hf) as Hs.
    cbn [extractAllTo] in H.
    pose proof (settle_due_failed (unlinks s) (tree s) (failed_unlink s)) as Hd.
    destruct (settle_due_spec (unlinks s) (tree s) (failed_unlink s)) as (fired & T1 & P1).
    { destruct (extract_entry e _) as [err|d'] eqn:E; [done|].
      by apply extractAllTo_failed in H. }
    set (s1 := settle_due (unlinks s) (tree s) (failed_unlink s)) in *.
    destruct (extract_entry e (tree s1)) as [err|d'] eqn:E; [done|].
    apply clear_of_cons in C as [Ce C].
    assert (PF : (fired ++ F) ++ (unlinks s1).*2 ≡ₚ F ++ (unlinks s).*2).
    { rewrite <- P1. rewrite (Permutation_app_comm fired F). by rewrite <- app_assoc. }
    rewrite T, <- remove_all_app in T1. rewrite T1 in E.
    rewrite extract_entry_remove_all in E.
    2:{ apply Forall_forall. intros p Hp. rewrite Forall_forall in Ce. apply Ce.
        rewrite <- PF. apply elem_of_app. by left. }
    destruct (extract_entry e D) as [err|D1] eqn:ED; [done|]. injection E as <-.
    destruct (IH _ _ D1 (fired ++ F) H Hf eq_refl) as (D' & F' & X & T' & P').
    { simpl. by apply (clear_of_perm _ _ _ (symmetry PF)). }
    exists D', F'. split_and!.
    + simpl. by rewrite ED.
    + done.
    + simpl in P'. by rewrite P', PF.
Qed.

Lemma clear_of_subset ps qs es :
  (forall p, p ∈ qs -> p ∈ ps) -> clear_of ps es = true -> clear_of qs es = true.
Proof. rewrite !clear_of_spec. intros S H e p He Hp. apply H; [done|]. by apply S. Qed.

Lemma clear_of_entries_app ps es1 es2 :
  clear_of ps (es1 ++ es2) = true <-> clear_of ps es1 = true /\ clear_of ps es2 = true.
Proof. unfold clear_of. by rewrite forallb_app, andb_true_iff. Qed.

Lemma omap_cons_Some {A B} (f : A -> option B) x y l :
  f x = Some y -> omap f (x :: l) = y :: omap f l.
Proof. intros H. simpl. by rewrite H. Qed.

Section Racing.

Variable readZip : bytes -> option (list ZipEntry).

(** The destination with the downloaded archive extracted, and the paths
    of the part files. *)
Variable d1 : dir.
Variable paths : list (list string).

Lemma extract_part_failed name delay s s' err :
  extract_part readZip name delay s = (s', err) ->
  failed_unlink s' = None -> failed_unlink s = None.
Proof.
  unfold extract_part.
  set (s1 := settle_due (unlinks s) (tree s) (failed_unlink s)).
  assert (failed_unlink s1 = None -> failed_unlink s = None) as Hd
    by apply settle_due_failed.
  destruct (join name) as [p|]; [|by intros [= <- _]].
  destruct (lookup_node p (tree s1)) as [[data|?]|]; try by intros [= <- _].
  destruct (readZip data) as [inner|]; [|by intros [= <- _]].
  destruct (extractAllTo inner s1) as [s2 [e|]] eqn:E.
  - intros [= <- _] H. apply Hd. by eapply extractAllTo_failed.
  - intros [= <- _] H. apply Hd. by eapply extractAllTo_failed.
Qed.

Lemma extract_parts_failed names : forall delays s s' err,
  extract_parts readZip delays names s = (s', err) ->
  failed_unlink s' = None -> failed_unlink s = None.
Proof.
  induction names as [|name names IH]; intros delays s s' err; simpl;
    [by intros [= <- _]|].
  destruct (extract_part readZip name (hd 0%nat delays) s) as [s1 e] eqn:E1.
  destruct (extract_parts readZip (tl delays) names s1) as [s2 e'] eqn:E2.
  intros [= <- _] H. eapply extract_part_failed; [done|]. by eapply IH.
Qed.

(** A callback whose part stays clear of the part files: the part is the
    one the archive holds, and it is extracted as if nothing were in
    flight. *)
Lemma extract_part_racing name delay s s' (D : dir) F sofar :
  extract_part readZip name delay s = (s', None) ->
  failed_unlink s' = None ->
  tree s = remove_all F D ->
  extract_all sofar d1 = inr D ->
  clear_of paths sofar = true ->
  (forall p, p ∈ F ++ (unlinks s).*2 -> p ∈ paths) ->
  (forall p, join name = Some p -> p ∈ paths /\ p ∉ F ++ (unlinks s).*2) ->
  (forall part, read_part readZip d1 name = Some part -> clear_of paths part.2 = true) ->
  exists p inner D' F',
    read_part readZip d1 name = Some (p, inner) /\
    extract_all (sofar ++ inner) d1 = inr D' /\
    tree s' = remove_all F' D' /\
    F' ++ (unlinks s').*2 ≡ₚ (F ++ (unlinks s).*2) ++ [p].
Proof.
  intros H Hf T So Cs Sub New Cp.
  pose proof (extract_part_failed _ _ _ _ _ H Hf) as Hs.
  unfold extract_part in H.
  destruct (settle_due_spec (unlinks s) (tree s) (failed_unlink s)) as (fired & T1 & P1).
  { revert H. set (s1 := settle_due _ _ _).
    destruct (join name) as [p|]; [|done].
    destruct (lookup_node p (tree s1)) as [[data|?]|]; try done.
    destruct (readZip data) as [inner|]; [|done].
    destruct (extractAllTo inner s1) as [s2 [e|]] eqn:E; [done|].
    intros [= <-]. by eapply extractAllTo_failed. }
  set (s1 := settle_due (unlinks s) (tree s) (failed_unlink s)) in *.
  assert (PF : (fired ++ F) ++ (unlinks s1).*2 ≡ₚ F ++ (unlinks s).*2).
  { rewrite <- P1. rewrite (Permutation_app_comm fired F). by rewrite <- app_assoc. }
  rewrite T, <- remove_all_app in T1.
  destruct (join name) as [p|] eqn:J; [|done].
  destruct (New p eq_refl) as [Pin Pnew].
  destruct (lookup_node p (tree s1)) as [[data|?]|] eqn:L; try done.
  rewrite T1 in L. apply lookup_remove_all_file in L as [_ L].
  assert (L1 : lookup_node p d1 = Some (File data)).
  { rewrite <- L. symmetry. eapply extract_all_lookup_other; [done|].
    intros e He. by eapply (proj1 (clear_of_spec _ _) Cs). }
  destruct (readZip data) as [inner|] eqn:R; [|done].
  assert (RP : read_part readZip d1 name = Some (p, inner)).
  { unfold read_part. by rewrite J, L1, R. }
  specialize (Cp _ RP). simpl in Cp.
  destruct (extractAllTo inner s1) as [s2 [e|]] eqn:E; [done|].
  injection H as <-. simpl in Hf.
  destruct (extractAllTo_racing inner s1 s2 D (fired ++ F) E Hf T1) as (D' & F' & X & T' & P').
  { eapply clear_of_subset; [|done]. intros q Hq. apply Sub. by rewrite <- PF. }
  exists p, inner, D', F'. split_and!; try done.
  - by rewrite extract_all_app, So.
  - simpl. rewrite fmap_app. simpl. rewrite app_assoc. by rewrite P', PF.
Qed.

(** The callbacks of the parts of an archive whose parts stay clear of one
    another: the parts are those the archive holds, and the tree is the one
    of their plain extraction with the files unlinked so far removed. *)
Lemma extract_parts_racing names : forall delays s s' (D : dir) F sofar,
  extract_parts readZip delays names s = (s', None) ->
  failed_unlink s' = None ->
  tree s = remove_all F D ->
  extract_all sofar d1 = inr D ->
  clear_of paths sofar = true ->
  (forall p, p ∈ F ++ (unlinks s).*2 -> p ∈ paths) ->
  (forall p, p ∈ omap join names -> p ∈ paths) ->
  NoDup ((F ++ (unlinks s).*2) ++ omap join names) ->
  (forall name part, name ∈ names -> read_part readZip d1 name = Some part ->
                     clear_of paths part.2 = true) ->
  exists parts D' F',
    Forall2 (fun name part => read_part readZip d1 name = Some part) names parts /\
    extract_all (sofar ++ (parts ≫= snd)) d1 = inr D' /\
    tree s' = remove_all F' D' /\
    F' ++ (unlinks s').*2 ≡ₚ (F ++ (unlinks s).*2) ++ parts.*1.
Proof.
  induction names as [|name names IH]; intros delays s s' D F sofar.
  - intros [= <-] Hf T So Cs Sub _ _ _. exists [], D, F.
    split_and!; try done; by rewrite ?app_nil_r.
  - intros H Hf T So Cs Sub SubN N Cp. cbn [extract_parts] in H.
    destruct (extract_part readZip name (hd 0%nat delays) s) as [s1 e] eqn:E1.
    destruct (extract_parts readZip (tl delays) names s1) as [s2 e'] eqn:E2.
    destruct e as [e|]; [done|]. simpl in H. injection H as -> ->.
    pose proof (extract_parts_failed _ _ _ _ _ E2 Hf) as Hf1.
    destruct (extract_part_racing _ _ _ _ D F sofar E1 Hf1 T So Cs Sub)
      as (p & inner & D1 & F1 & RP & X1 & T1 & P1).
    { intros p J. rewrite (omap_cons_Some _ _ _ _ J) in SubN, N. split.
      - apply SubN. left.
      - apply NoDup_app in N as (_ & N & _). intros Hp. apply (N p Hp). left. }
    { intros part. apply Cp. left. }
    assert (J : join name = Some p).
    { unfold read_part in RP. destruct (join name); [|done]. repeat case_match; by simplify_eq. }
    rewrite (omap_cons_Some _ _ _ _ J) in SubN, N.
    destruct (IH _ _ _ D1 F1 (sofar ++ inner) E2 Hf T1 X1) as (parts & D' & F' & RPs & X & T' & P').
    + apply clear_of_entries_app. split; [done|]. by apply (Cp name (p, inner)); [left|].
    + intros q Hq. rewrite P1 in Hq. apply elem_of_app in Hq as [Hq|Hq%list_elem_of_singleton].
      * by apply Sub.
      * subst q. apply SubN. left.
    + intros q Hq. apply SubN. by right.
    + rewrite P1. rewrite <- app_assoc. done.
    + intros name' part Hn. apply Cp. by right.
    + exists ((p, inner) :: parts), D', F'. split_and!.
      * by constructor.
      * simpl. by rewrite app_assoc.
      * done.
      * rewrite P', P1. simpl. by rewrite <- app_assoc.
Qed.

End Racing.

Lemma read_part_join readZip (d1 : dir) name p inner :
  read_part readZip d1 name = Some (p, inner) ->
  join name = Some p /\
  exists data, lookup_node p d1 = Some (File data) /\ readZip data = Some inner.
Proof.
  unfold read_part. destruct (join name) as [q|]; [|done].
  destruct (lookup_node q d1) as [[data|?]|] eqn:L; try done.
  destruct (readZip data) as [es|] eqn:R; [|done]. intros [= -> ->]. eauto.
Qed.

Lemma read_parts_paths readZip (d1 : dir) names parts :
  Forall2 (fun name part => read_part readZip d1 name = Some part) names parts ->
  omap join names = parts.*1 /\ omap (read_part readZip d1) names = parts.
Proof.
  induction 1 as [|name [p inner] names parts RP _ [IH1 IH2]]; [done|].
  destruct (read_part_join _ _ _ _ _ RP) as [J _].
  rewrite (omap_cons_Some _ _ _ _ J), (omap_cons_Some _ _ _ _ RP). simpl.
  by rewrite IH1, IH2.
Qed.

(** An unpacking that succeeds, of an archive whose parts stay clear of
    one another: whenever the unlinks take effect, the parts are those the
    archive holds, and the destination is the plain extraction of the
    archive and of its parts, with the part files removed. *)
Lemma unpack_completed readZip delays zipData entries (u : dir) :
  readZip zipData = Some entries ->
  parts_apart readZip entries = true ->
  unpack readZip delays (Some zipData) ∅ = (u, None) ->
  exists parts full,
    extract_all entries ∅ = inr (outer entries) /\
    Forall2 (fun name part => read_part readZip (outer entries) name = Some part)
      (partFiles entries) parts /\
    extract_all (entries ++ (parts ≫= snd)) ∅ = inr full /\
    u = remove_all parts.*1 full.
Proof.
  intros HZ [[_ N]%andb_true_iff C]%andb_true_iff. apply bool_decide_eq_true in N.
  unfold unpack. rewrite HZ.
  destruct (extractAllTo entries (quiet ∅)) as [s [e|]] eqn:E; [done|].
  apply extractAllTo_quiet in E as (d1 & -> & E).
  rewrite (outer_spec _ _ E) in *. fold (partFiles entries).
  destruct (extract_parts readZip delays (partFiles entries) (quiet d1)) as [s' [e|]] eqn:EP;
    [done|].
  simpl. intros [Hf ->]%settle_all_spec.
  destruct (extract_parts_racing readZip d1 (omap join (partFiles entries))
              (partFiles entries) delays (quiet d1) s' d1 [] [] EP Hf)
    as (parts & D' & F' & RP & X & T & P); try done.
  - by intros p ?%elem_of_nil.
  - intros name part Hn RP. apply clear_of_spec. intros e p He Hp.
    apply (proj1 (clear_of_spec _ _) C); [|done].
    apply list_elem_of_bind. exists part. split; [done|].
    apply list_elem_of_omap. eauto.
  - exists parts, D'. split_and!; try done.
    + rewrite extract_all_app, E. done.
    + rewrite T, <- remove_all_app. apply remove_all_perm.
      rewrite <- P. simpl. rewrite Permutation_app_comm. by rewrite <- Permutation_rev.
Qed.

(** ** Paths through the flattened destination *)

Lemma lookup_node_congr k rest (d d' : dir) :
  d !! k = d' !! k -> lookup_node (k :: rest) d = lookup_node (k :: rest) d'.
Proof. intros H. simpl. by rewrite H. Qed.

Lemma lookup_node_Some_top k rest (d : dir) n :
  lookup_node (k :: rest) d = Some n -> is_Some (d !! k).
Proof. simpl. destruct (d !! k); [by eexists | done]. Qed.

Section Hoisted.

Variable d0 : dir.
Hypothesis free : no_clash d0.

(** What the flattened destination holds at a name. *)
Lemma hoisted_lookup k n :
  hoisted d0 !! k = Some n <->
  (exists F, F ∈ exportFolders d0 /\ children_of d0 F !! k = Some n) \/
  ((k ∉ children_names d0) /\ d0 !! k = Some n /\ startsWith "Export-" k = false).
Proof.
  unfold hoisted. split.
  - intros [U|[U Fi]]%lookup_union_Some_raw.
    + left. apply lookup_union_list_Some in U as (m & [F [-> HF]]%list_elem_of_fmap & C).
      eauto.
    + right. apply map_lookup_filter_Some in Fi as [D S]. split; [|done].
      intros (F & HF & [m C])%elem_of_children_names.
      eapply lookup_union_list_None in U; [by rewrite C in U|].
      apply list_elem_of_fmap. eauto.
  - intros [(F & HF & C)|(N & D & S)].
    + destruct (union_list (children_of d0 <$> exportFolders d0) !! k) as [n'|] eqn:U.
      * rewrite (lookup_union_Some_l _ _ _ _ U).
        apply lookup_union_list_Some in U as (m & [F' [-> HF']]%list_elem_of_fmap & C').
        assert (F' = F) as -> by (apply (child_one_owner d0 free F' F k); by eauto).
        congruence.
      * exfalso. eapply lookup_union_list_None in U; [by rewrite C in U|].
        apply list_elem_of_fmap. eauto.
    + assert (U : union_list (children_of d0 <$> exportFolders d0) !! k = None).
      { destruct (union_list _ !! k) as [n'|] eqn:U; [exfalso | done].
        apply lookup_union_list_Some in U as (m & [F [-> HF]]%list_elem_of_fmap & C).
        apply N, elem_of_children_names. eauto. }
      rewrite lookup_union_r by done. by apply map_lookup_filter_Some.
Qed.

(** What is found in the destination is found in the flattened
    destination, the folder it was in left out if that was an export
    folder. *)
Lemma hoisted_lookup_node_in F c rest n :
  startsWith "Export-" F = true ->
  lookup_node (F :: c :: rest) d0 = Some n ->
  lookup_node (c :: rest) (hoisted d0) = Some n.
Proof.
  intros S. rewrite lookup_node_deep.
  destruct (d0 !! F) as [[?|ch]|] eqn:D; try done. intros L.
  destruct (lookup_node_Some_top _ _ _ _ L) as [m C].
  rewrite <- L. apply lookup_node_congr. rewrite C. apply hoisted_lookup. left.
  exists F. split.
  - apply elem_of_exportFolders. by rewrite D.
  - by rewrite (children_of_Dir _ _ _ D).
Qed.

Lemma hoisted_lookup_node_out k rest n :
  startsWith "Export-" k = false ->
  k ∉ children_names d0 ->
  lookup_node (k :: rest) d0 = Some n ->
  lookup_node (k :: rest) (hoisted d0) = Some n.
Proof.
  intros S N L. rewrite <- L. apply lookup_node_congr.
  destruct (lookup_node_Some_top _ _ _ _ L) as [m D]. rewrite D.
  apply hoisted_lookup. by right.
Qed.

(** What is found in the flattened destination was in the destination,
    there or in an export folder. *)
Lemma hoisted_lookup_node_inv k rest n :
  lookup_node (k :: rest) (hoisted d0) = Some n ->
  (startsWith "Export-" k = false /\ lookup_node (k :: rest) d0 = Some n) \/
  (exists F, startsWith "Export-" F = true /\ lookup_node (F :: k :: rest) d0 = Some n).
Proof.
  intros L. destruct (lookup_node_Some_top _ _ _ _ L) as [m H].
  apply hoisted_lookup in H as [(F & HF & C)|(N & D & S)].
  - right. exists F. apply elem_of_exportFolders in HF as [_ S]. split; [done|].
    rewrite lookup_node_deep. unfold children_of in C.
    destruct (d0 !! F) as [[?|ch]|] eqn:D; try by rewrite lookup_empty in C.
    rewrite <- L. apply lookup_node_congr. rewrite C. symmetry. apply hoisted_lookup.
    left. exists F. split; [|by rewrite (children_of_Dir _ _ _ D)].
    apply elem_of_exportFolders. by rewrite D.
  - left. split; [done|]. rewrite <- L. apply lookup_node_congr. rewrite D. symmetry.
    apply hoisted_lookup. by right.
Qed.

End Hoisted.

(** ** The files an extraction leaves *)

Lemma extract_entry_lookup_file e p (d d' : dir) z :
  extract_entry e d = inr d' ->
  lookup_node p d' = Some (File z) ->
  lookup_node p d = Some (File z) \/
  (canonical (entryName e) = p /\ isDirectory (entryName e) = false /\ z = getData e).
Proof.
  intros E L. destruct (is_prefix p (canonical (entryName e))) eqn:P.
  - right. unfold extract_entry in E. destruct (isDirectory (entryName e)).
    + destruct (makeDir_lookup_prefix _ _ _ _ E P) as [c C]. congruence.
    + destruct (decide (p = canonical (entryName e))) as [->|Hne].
      * split; [done|]. split; [done|].
        assert (canonical (entryName e) <> []) as Hq by (intros Q; by rewrite Q in L).
        rewrite (writeFileTo_lookup_target _ _ _ _ E Hq) in L.
        destruct (lookup_node _ d) as [[?|?]|]; congruence.
      * destruct (writeFileTo_lookup_above _ _ _ _ _ E P Hne) as [c C]. congruence.
  - left. by rewrite <- (extract_entry_lookup_other _ _ _ _ E P).
Qed.

(** A file found after an extraction was there before, or is the file of
    an entry. *)
Lemma extract_all_lookup_file es p z : forall (d d' : dir),
  extract_all es d = inr d' ->
  lookup_node p d' = Some (File z) ->
  lookup_node p d = Some (File z) \/
  exists e, e ∈ es /\ canonical (entryName e) = p /\ isDirectory (entryName e) = false.
Proof.
  induction es as [|e es IH]; intros d d'; simpl; [intros [= <-]; by left|].
  destruct (extract_entry e d) as [err|d1] eqn:E; [done|]. intros X L.
  destruct (IH _ _ X L) as [L1|(e' & He & Q & I)].
  - destruct (extract_entry_lookup_file _ _ _ _ _ E L1) as [?|(Q & I & _)]; [by left|].
    right. exists e. split; [left | done].
  - right. exists e'. split; [by right | done].
Qed.

Lemma writers_nil q es :
  writers q es = [] <-> forall e, e ∈ es -> is_prefix q (canonical (entryName e)) = false.
Proof.
  unfold writers. induction es as [|e es IH]; simpl.
  - split; [by intros _ e ?%elem_of_nil | done].
  - destruct (is_prefix q (canonical (entryName e))) eqn:P.
    + split; [done|]. intros H. specialize (H e (list_elem_of_here _ _)). congruence.
    + rewrite IH. split.
      * intros H e' [->|?]%elem_of_cons; auto.
      * intros H e' He. apply H. by right.
Qed.

(** The file of an entry that is the only one to be written at its path
    or below it. *)
Lemma extract_all_sole_writer es e : forall (d full : dir),
  extract_all es d = inr full ->
  writers (canonical (entryName e)) es = [e] ->
  isDirectory (entryName e) = false ->
  canonical (entryName e) <> [] ->
  lookup_node (canonical (entryName e)) d = None ->
  lookup_node (canonical (entryName e)) full = Some (File (getData e)).
Proof.
  induction es as [|e' es IH]; intros d full; [done|]. cbn [extract_all].
  destruct (extract_entry e' d) as [err|d1] eqn:E; [done|]. intros X W I Hq L.
  unfold writers in W. cbn [List.filter] in W.
  destruct (is_prefix (canonical (entryName e)) (canonical (entryName e'))) eqn:P.
  - injection W as -> W. pose proof (proj1 (writers_nil _ es) W) as W'.
    rewrite (extract_all_lookup_other _ _ _ _ X W').
    unfold extract_entry in E. rewrite I in E.
    rewrite (writeFileTo_lookup_target _ _ _ _ E Hq). by rewrite L.
  - apply (IH d1); try done.
    by rewrite (extract_entry_lookup_other _ _ _ _ E P).
Qed.

(** ** Part names inside paths *)

Lemma split_on_substring sep s : forall cur c,
  c ∈ split_on sep cur s -> exists pre post, cur +:+ s = pre +:+ c +:+ post.
Proof.
  induction s as [|a s IH]; intros cur c; simpl.
  - intros ->%list_elem_of_singleton. exists "", "". by rewrite string_app_nil_r.
  - destruct (sep a).
    + intros [->|H]%elem_of_cons.
      * by exists "", (String a s).
      * destruct (IH _ _ H) as (pre & post & E). simpl in E.
        exists (cur +:+ String a pre), post. rewrite E.
        rewrite !string_app_assoc. done.
    + intros H. destruct (IH _ _ H) as (pre & post & E).
      exists pre, post. rewrite <- E. by rewrite string_app_assoc.
Qed.

Lemma normalize_rooted_elem cs : forall seen c,
  c ∈ normalize_rooted seen cs -> c ∈ seen \/ c ∈ cs.
Proof.
  induction cs as [|x cs IH]; intros seen c; simpl.
  - intros H. left. apply list_elem_of_In. apply list_elem_of_In in H. by apply in_rev.
  - destruct (is_blank x); [|destruct (String.eqb x "..")].
    + intros [?|?]%IH; [by left | right; by right].
    + intros [H|?]%IH; [left | right; by right].
      destruct seen; [done | by right].
    + intros [[->|?]%elem_of_cons|?]%IH; [right; left | by left | right; by right].
Qed.

(** A component of the path of an entry is a part of its name. *)
Lemma canonical_substring name c :
  c ∈ canonical name -> exists pre post, name = pre +:+ c +:+ post.
Proof.
  unfold canonical. intros [H|H]%normalize_rooted_elem; [by apply elem_of_nil in H|].
  by apply split_on_substring in H.
Qed.

Lemma is_part_name_substring pre c post :
  is_part_name c = true -> is_part_name (pre +:+ c +:+ post) = true.
Proof.
  unfold is_part_name. rewrite !test_spec. intros (a & m & b & -> & M).
  exists (pre +:+ a), m, (b +:+ post). split; [|done].
  by rewrite !string_app_assoc.
Qed.

(** An entry whose name is no part name is written at a path none of
    whose components is a part name. *)
Lemma canonical_no_part_name name :
  is_part_name name = false -> Forall (fun c => is_part_name c = false) (canonical name).
Proof.
  intros H. apply Forall_forall. intros c (pre & post & E)%canonical_substring.
  destruct (is_part_name c) eqn:P; [|done].
  rewrite E in H. by rewrite is_part_name_substring in H.
Qed.

(** * What [extractZip] and [run] leave at the destination *)

Lemma read_parts_unique readZip (d1 : dir) names parts1 parts2 :
  Forall2 (fun name part => read_part readZip d1 name = Some part) names parts1 ->
  Forall2 (fun name part => read_part readZip d1 name = Some part) names parts2 ->
  parts1 = parts2.
Proof.
  intros H1 H2. apply read_parts_paths in H1 as [_ <-]. by apply read_parts_paths in H2 as [_ <-].
Qed.

(** The tree an archive whose parts stay clear of one another unpacks to
    does not depend on when the unlinks take effect. *)
Lemma unpack_deterministic readZip delays1 delays2 zipData entries (u1 u2 : dir) :
  readZip zipData = Some entries ->
  parts_apart readZip entries = true ->
  unpack readZip delays1 (Some zipData) ∅ = (u1, None) ->
  unpack readZip delays2 (Some zipData) ∅ = (u2, None) ->
  u1 = u2.
Proof.
  intros HZ A U1 U2.
  destruct (unpack_completed _ _ _ _ _ HZ A U1) as (parts1 & full1 & _ & RP1 & X1 & ->).
  destruct (unpack_completed _ _ _ _ _ HZ A U2) as (parts2 & full2 & _ & RP2 & X2 & ->).
  rewrite (read_parts_unique _ _ _ _ _ RP1 RP2) in *. congruence.
Qed.

(** C7 (amended): for an archive whose parts stay clear of one another
    and which, once it and its parts are unpacked, has no two export
    folders with a child of the same name and no child of an export folder
    named like an export folder, two flattenings into empty destinations
    that complete leave the same tree, whenever the unlinks of the part
    files take effect and in whatever order the file-system calls of the
    export-folder callbacks complete. *)
Theorem C7_flatten_deterministic (readZip : bytes -> option (list ZipEntry))
    (zipData : bytes) (entries : list ZipEntry) (delays1 delays2 : list nat)
    (schedule1 schedule2 : list (string * string)) (d1 d2 : dir) :
  readZip zipData = Some entries ->
  parts_apart readZip entries = true ->
  no_clash (unpack readZip delays1 (Some zipData) ∅).1 ->
  extractZip readZip delays1 schedule1 (Some zipData) ∅ = (d1, Completed) ->
  extractZip readZip delays2 schedule2 (Some zipData) ∅ = (d2, Completed) ->
  d1 = d2.
Proof.
  intros HZ A. unfold extractZip.
  destruct (unpack readZip delays1 (Some zipData) ∅) as [u1 [e|]] eqn:U1; [done|].
  destruct (unpack readZip delays2 (Some zipData) ∅) as [u2 [e|]] eqn:U2; [done|].
  rewrite <- (unpack_deterministic _ _ _ _ _ _ _ HZ A U1 U2).
  simpl. intros Free R1 R2.
  apply (flatten_completed u1 Free) in R1, R2. congruence.
Qed.

Lemma C7_flatten_deterministic_witness :
  (extractZip sample_reader [] 
     [("Export-foo", ""); ("Export-foo", "notes.md"); ("Export-foo", "more.md");
      ("Export-foo", "")]
     (archive "export") ∅).1
  = (extractZip sample_reader [4; 0; 1]%nat
       [("Export-foo", ""); ("Export-foo", "more.md"); ("Export-foo", "notes.md");
        ("Export-foo", "")]
       (archive "export") ∅).1.
Proof.
  apply (C7_flatten_deterministic sample_reader (String.list_byte_of_string "export")
           [entry "Part-1.zip" "part-1"; entry "Part-2.zip" "part-2-more";
            entry "Export-foo/" ""; entry "Export-foo/notes.md" "my notes";
            entry "sub/Part-3.zip" "part-3"]
           [] [4; 0; 1]%nat
           [("Export-foo", ""); ("Export-foo", "notes.md"); ("Export-foo", "more.md");
            ("Export-foo", "")]
           [("Export-foo", ""); ("Export-foo", "more.md"); ("Export-foo", "notes.md");
            ("Export-foo", "")]).
  - reflexivity.
  - vm_compute. reflexivity.
  - apply (bool_decide_eq_true_1 (no_clash _)). vm_compute. reflexivity.
  - vm_compute. reflexivity.
  - vm_compute. reflexivity.
Defined.

(** C7 (as stated, refuted): two export folders hold a child of the same
    name; the flattening completes under both orders of the two renames,
    and the file left at the destination is the one moved last. *)
Lemma C7_flatten_depends_on_order :
  let run1 := extractZip sample_reader []
                [("Export-a", ""); ("Export-b", ""); ("Export-a", "x.md");
                 ("Export-b", "x.md"); ("Export-a", ""); ("Export-b", "")]
                (archive "clash") ∅ in
  let run2 := extractZip sample_reader []
                [("Export-a", ""); ("Export-b", ""); ("Export-b", "x.md");
                 ("Export-a", "x.md"); ("Export-a", ""); ("Export-b", "")]
                (archive "clash") ∅ in
  run1.2 = Completed /\ run2.2 = Completed /\
  run1.1 !! "x.md" = Some (text "from b") /\
  run2.1 !! "x.md" = Some (text "from a") /\
  run1.1 <> run2.1.
Proof.
  cbv zeta. split_and!; try (vm_compute; reflexivity). intros H.
  apply (f_equal (fun r : dir => r !! "x.md")) in H. vm_compute in H. discriminate.
Qed.

(** The parts phase alone can make the tree depend on the timing: when
    "Part-2.zip" holds an entry "Part-1.zip", that file survives if the
    unlink of the first part takes effect before it is written, and is
    deleted if the unlink takes effect afterwards. *)
Example parts_race :
  let early := extractZip sample_reader [0; 0]%nat [] (archive "racing") ∅ in
  let late := extractZip sample_reader [9; 0]%nat [] (archive "racing") ∅ in
  early.2 = Completed /\ late.2 = Completed /\
  early.1 !! "Part-1.zip" = Some (text "late") /\
  late.1 !! "Part-1.zip" = None /\
  parts_apart sample_reader
    [entry "Part-1.zip" "part-1"; entry "Part-2.zip" "part-2-over-1"] = false.
Proof. cbv zeta. split_and!; vm_compute; reflexivity. Qed.

(** A clash hidden behind ".." is a clash: "Export-b/y/../x.md" is
    extracted as "Export-b/x.md". *)
Example dotted_clash_is_a_clash :
  ~ no_clash (unpack sample_reader [] (archive "dotted-clash") ∅).1 /\
  (extractZip sample_reader []
     [("Export-a", ""); ("Export-b", ""); ("Export-a", "x.md"); ("Export-b", "x.md");
      ("Export-a", ""); ("Export-b", "")]
     (archive "dotted-clash") ∅)
  = ({["x.md" := text "from b"]}, Completed) /\
  (extractZip sample_reader []
     [("Export-a", ""); ("Export-b", ""); ("Export-b", "x.md"); ("Export-a", "x.md");
      ("Export-a", ""); ("Export-b", "")]
     (archive "dotted-clash") ∅)
  = ({["x.md" := text "from a"]}, Completed).
Proof.
  split_and!.
  - apply (bool_decide_eq_false_1 (no_clash _)). vm_compute. reflexivity.
  - vm_compute. reflexivity.
  - vm_compute. reflexivity.
Qed.

(** A child that only takes the place of a file at the top of the
    destination is no obstacle: the order does not matter. *)
Example replaced_file_is_deterministic :
  let d : dir := <["Export-a" := Dir {["x.md" := text "new"]}]> {["x.md" := text "old"]} in
  no_clash d /\ ~ no_collision d /\
  run_tasks [("Export-a", ""); ("Export-a", "x.md"); ("Export-a", "")] d (start_tasks d)
  = ({["x.md" := text "new"]}, Completed).
Proof.
  cbv zeta. split_and!.
  - apply (bool_decide_eq_true_1 (no_clash _)). vm_compute. reflexivity.
  - apply (bool_decide_eq_false_1 (no_collision _)). vm_compute. reflexivity.
  - vm_compute. reflexivity.
Qed.

(** C9 (amended): a run that ends otherwise than by completing either
    failed before the extraction, and then the destination directory is
    as it was, or failed during the extraction, and then the previous
    content is gone and the directory holds what [extractZip] had written
    into an empty directory when it stopped. *)
Theorem C9_failed_run (readZip : bytes -> option (list ZipEntry)) (net : Network)
    (delays : list nat) (schedule : list (string * string)) (fs fs' : FileSystem)
    (c : completion) :
  run readZip net delays schedule fs = (fs', c) ->
  c <> Completed ->
  ((exportFromNotion net).2 <> Completed /\ workspaceDir fs' = workspaceDir fs) \/
  ((exportFromNotion net).2 = Completed /\
   exists d, extractZip readZip delays schedule (workspaceZip fs') ∅ = (d, c) /\
             workspaceDir fs' = Some (Dir d)).
Proof.
  unfold run. destruct (exportFromNotion net) as [[st written] c0]. simpl.
  destruct c0; try (intros [= <- <-] _; left; by split).
  destruct (extractZip readZip delays schedule _ ∅) as [d c1] eqn:E.
  destruct c1; intros [= <- <-] Hc; [done|..]; right; split; try done; by exists d.
Qed.

Lemma C9_failed_run_witness :
  let before := {| workspaceDir := Some (Dir {["old.md" := text "kept"]});
                   workspaceZip := None |} in
  ((exportFromNotion refusing_download).2 <> Completed /\
   workspaceDir (run sample_reader refusing_download [] [] before).1 = workspaceDir before) \/
  ((exportFromNotion refusing_download).2 = Completed /\
   exists d, extractZip sample_reader [] []
               (workspaceZip (run sample_reader refusing_download [] [] before).1) ∅
             = (d, Failed (AxiosError (Some 403))) /\
             workspaceDir (run sample_reader refusing_download [] [] before).1 = Some (Dir d)).
Proof.
  intros before.
  apply (C9_failed_run sample_reader refusing_download [] [] before
           (run sample_reader refusing_download [] [] before).1
           (Failed (AxiosError (Some 403)))).
  - vm_compute. reflexivity.
  - discriminate.
Defined.

(** C9 (as stated, refuted): the download succeeds, "Part-1.zip" of the
    archive is no zip archive, the run fails, and the destination holds
    neither its previous content nor a flattened export: the previous file
    is gone and the unopened "Part-1.zip" lies next to "a.md"; no timing of
    the file-system calls makes the extraction of this archive complete. *)
Lemma C9_partial_extraction_left :
  let before := {| workspaceDir := Some (Dir {["old.md" := text "kept"]});
                   workspaceZip := None |} in
  let after := run sample_reader (serving "broken-part") [] [] before in
  after.2 = Failed INVALID_FORMAT /\
  workspaceDir after.1
    = Some (Dir (<["Part-1.zip" := text "no zip data"]> {["a.md" := text "A"]})) /\
  workspaceDir after.1 <> workspaceDir before /\
  forall delays schedule,
    (extractZip sample_reader delays schedule (archive "broken-part") ∅).2
    = Failed INVALID_FORMAT.
Proof.
  cbv zeta. split_and!; try (vm_compute; reflexivity).
  intros H. apply (f_equal (fun o => o ≫= fun n => match n with
                                                     | Dir r => r !! "old.md"
                                                     | File _ => None
                                                     end)) in H.
    vm_compute in H. discriminate.
Qed.

Lemma extractZip_completed readZip delays schedule zip (d0 d : dir) :
  extractZip readZip delays schedule zip d0 = (d, Completed) ->
  exists u, unpack readZip delays zip d0 = (u, None) /\
            run_tasks schedule u (start_tasks u) = (d, Completed).
Proof.
  unfold extractZip. destruct (unpack readZip delays zip d0) as [u [e|]]; [done|]. eauto.
Qed.

Lemma writers_root es : writers [] es = es.
Proof.
  unfold writers. induction es as [|e es IH]; [done|]. simpl. f_equal. exact IH.
Qed.

Lemma elem_of_partFiles entries name :
  name ∈ partFiles entries <-> name ∈ map entryName entries /\ is_part_name name = true.
Proof. unfold partFiles. by rewrite !list_elem_of_In, filter_In. Qed.

Section Unpacked.

Variable readZip : bytes -> option (list ZipEntry).
Variable entries : list ZipEntry.
Variable parts : list (list string * list ZipEntry).
Variable full : dir.

Hypothesis apart : parts_apart readZip entries = true.
Hypothesis outer_ok : extract_all entries ∅ = inr (outer entries).
Hypothesis parts_ok :
  Forall2 (fun name part => read_part readZip (outer entries) name = Some part)
    (partFiles entries) parts.
Hypothesis full_ok : extract_all (entries ++ (parts ≫= snd)) ∅ = inr full.

Lemma inner_entries_parts : inner_entries readZip entries = parts ≫= snd.
Proof. unfold inner_entries. by destruct (read_parts_paths _ _ _ _ parts_ok) as [_ ->]. Qed.

Lemma part_paths : omap join (partFiles entries) = parts.*1.
Proof. by destruct (read_parts_paths _ _ _ _ parts_ok) as [-> _]. Qed.

Lemma inner_clear e p :
  e ∈ parts ≫= snd -> p ∈ parts.*1 -> is_prefix p (canonical (entryName e)) = false.
Proof.
  intros He Hp. apply andb_true_iff in apart as [_ C].
  fold (inner_entries readZip entries) in C. rewrite inner_entries_parts, part_paths in C.
  by apply (proj1 (clear_of_spec _ _) C).
Qed.

Lemma full_of_outer : extract_all (parts ≫= snd) (outer entries) = inr full.
Proof. pose proof full_ok as H. by rewrite extract_all_app, outer_ok in H. Qed.

(** The part of a part name: it is the archive the script opens, and its
    file is no longer there once the archive is unpacked. *)
Lemma part_opened_and_deleted name :
  name ∈ partFiles entries ->
  exists p data inner,
    (p, inner) ∈ parts /\ join name = Some p /\
    lookup_node p (outer entries) = Some (File data) /\ readZip data = Some inner /\
    lookup_node p (remove_all parts.*1 full) = None.
Proof.
  intros Hn. destruct (proj1 (list_elem_of_lookup _ _) Hn) as [i Hi].
  destruct (Forall2_lookup_l _ _ _ _ _ parts_ok Hi) as ([p inner] & Hp & RP).
  destruct (read_part_join _ _ _ _ _ RP) as (J & data & L & R).
  assert (Pin : (p, inner) ∈ parts) by (by eapply list_elem_of_lookup_2).
  exists p, data, inner. split_and!; try done.
  apply (lookup_remove_all_gone _ _ _ data).
  - apply list_elem_of_fmap. by exists (p, inner).
  - rewrite <- L. apply (extract_all_lookup_other _ _ _ _ full_of_outer).
    intros e He. apply inner_clear; [done|]. apply list_elem_of_fmap. by exists (p, inner).
Qed.

(** The file of an entry of a part that is the only entry to be written
    at its path or below it. *)
Lemma inner_entry_extracted e :
  e ∈ parts ≫= snd ->
  isDirectory (entryName e) = false ->
  writers (canonical (entryName e)) (entries ++ inner_entries readZip entries) = [e] ->
  lookup_node (canonical (entryName e)) (remove_all parts.*1 full)
  = Some (File (getData e)).
Proof.
  intros He I W. rewrite inner_entries_parts in W.
  assert (Hq : canonical (entryName e) <> []).
  { intros Q. rewrite Q, writers_root in W. pose proof He as He'.
    apply list_elem_of_bind in He' as (part & _ & Hpart).
    destruct (proj1 (list_elem_of_lookup _ _) Hpart) as [i Hi].
    destruct (Forall2_lookup_r _ _ _ _ _ parts_ok Hi) as (name & Hn & _).
    apply list_elem_of_lookup_2, elem_of_partFiles in Hn as [Hn _].
    destruct entries as [|e0 es]; [by apply elem_of_nil in Hn|].
    injection W as _ W. apply app_eq_nil in W as [_ W].
    rewrite W in He. by apply elem_of_nil in He. }
  apply lookup_remove_all_file. split.
  - intros Hp. pose proof (inner_clear e _ He Hp) as P. by rewrite is_prefix_refl in P.
  - apply (extract_all_sole_writer _ _ _ _ full_ok W I Hq). by apply lookup_node_empty.
Qed.

(** The files left once the archive is unpacked have no part name in
    their path, when the parts hold no entry with a part name. *)
Lemma unpacked_file_names p z :
  plain_part_names entries = true ->
  forallb (fun e => negb (is_part_name (entryName e))) (inner_entries readZip entries) = true ->
  lookup_node p (remove_all parts.*1 full) = Some (File z) ->
  Forall (fun c => is_part_name c = false) p.
Proof.
  intros PN NN [Hp L]%lookup_remove_all_file.
  destruct (extract_all_lookup_file _ _ _ _ _ full_ok L) as [L0|(e & He & Q & I)].
  { destruct p; [done | by rewrite lookup_node_empty in L0]. }
  assert (is_part_name (entryName e) = false) as Hn; [|rewrite <- Q; by apply canonical_no_part_name].
  apply elem_of_app in He as [He|He].
  - destruct (is_part_name (entryName e)) eqn:P; [exfalso | done]. apply Hp.
    rewrite <- part_paths. apply list_elem_of_omap. exists (entryName e). split.
    + apply elem_of_partFiles. split; [|done]. apply list_elem_of_In, in_map.
      by apply list_elem_of_In.
    + unfold plain_part_names in PN. rewrite forallb_forall in PN.
      rewrite <- Q. eapply bool_decide_eq_true_1, PN.
      apply list_elem_of_In, elem_of_partFiles. split; [|done].
      apply list_elem_of_In, in_map. by apply list_elem_of_In.
  - rewrite inner_entries_parts, forallb_forall in NN.
    apply negb_true_iff, NN. by apply list_elem_of_In.
Qed.

End Unpacked.




Lemma is_residue_false name :
  negb (is_residue name) = true -> is_part_name name = false /\ startsWith "Export-" name = false.
Proof. unfold is_residue. intros H%negb_true_iff. by apply orb_false_iff in H. Qed.

(** C6 (amended): take an archive that holds "Part-1.zip" and
    "Part-2.zip" at its top, both zip archives, with whatever other
    entries, such that the parts stay clear of one another, the part names
    are plain, no part holds an entry with a part name, and, once the
    archive and its parts are unpacked, "Export-foo" holds the file
    "notes.md", the moves of the flattening do not collide, and no export
    folder holds a name that is a part name or starts with "Export-".  Then
    after a flattening that completes, whenever the file-system calls take
    effect: "Part-1.zip", "Part-2.zip" and "Export-foo" are gone;
    "notes.md" is at the top; the file of every entry of the two parts that
    is the only entry to be written at its path is in the destination with
    the content of the entry, one level up if it was in an export folder;
    nothing at the top has a name starting with "Export-"; and no file,
    at whatever depth, has a part name in its path. *)
Theorem C6_two_parts_flattened (readZip : bytes -> option (list ZipEntry))
    (zipData : bytes) (entries part1 part2 : list ZipEntry) (notes : bytes)
    (delays : list nat) (schedule : list (string * string)) (d : dir) :
  readZip zipData = Some entries ->
  "Part-1.zip" ∈ map entryName entries ->
  "Part-2.zip" ∈ map entryName entries ->
  read_part readZip (outer entries) "Part-1.zip" = Some (["Part-1.zip"], part1) ->
  read_part readZip (outer entries) "Part-2.zip" = Some (["Part-2.zip"], part2) ->
  parts_apart readZip entries = true ->
  plain_part_names entries = true ->
  forallb (fun e => negb (is_part_name (entryName e))) (inner_entries readZip entries) = true ->
  let u := (unpack readZip delays (Some zipData) ∅).1 in
  lookup_node ["Export-foo"; "notes.md"] u = Some (File notes) ->
  no_collision u ->
  forallb (fun child => negb (is_residue child)) (children_names u) = true ->
  extractZip readZip delays schedule (Some zipData) ∅ = (d, Completed) ->
  d !! "Part-1.zip" = None /\ d !! "Part-2.zip" = None /\ d !! "Export-foo" = None /\
  d !! "notes.md" = Some (File notes) /\
  (forall e, e ∈ part1 ++ part2 ->
     isDirectory (entryName e) = false ->
     writers (canonical (entryName e)) (entries ++ inner_entries readZip entries) = [e] ->
     lookup_node (flat (canonical (entryName e))) d = Some (File (getData e))) /\
  (forall k, is_Some (d !! k) -> startsWith "Export-" k = false) /\
  (forall p z, lookup_node p d = Some (File z) -> Forall (fun c => is_part_name c = false) p).
Proof.
  intros HZ N1 N2 R1 R2 A PN NN u NT NC TC Run. subst u.
  apply extractZip_completed in Run as (u & U & Run).
  rewrite U in *. cbn [fst] in *.
  destruct (unpack_completed _ _ _ _ _ HZ A U) as (parts & full & O & RP & X & Eu).
  pose proof (no_collision_no_clash u NC) as Clash.
  pose proof Run as Hd. apply (flatten_completed u Clash) in Hd. subst d.
  assert (Tidy : forall c, c ∈ children_names u ->
                           is_part_name c = false /\ startsWith "Export-" c = false).
  { intros c Hc. rewrite forallb_forall in TC. apply is_residue_false, TC.
    by apply list_elem_of_In. }
  assert (Gone : forall name, name ∈ map entryName entries -> is_part_name name = true ->
                              join name = Some [name] -> hoisted u !! name = None).
  { intros name Hn Hp J. destruct (hoisted u !! name) as [n|] eqn:H; [exfalso | done].
    apply (hoisted_lookup u Clash) in H as [(F & HF & C)|(_ & D & _)].
    - destruct (Tidy name) as [T _]; [|congruence]. apply elem_of_children_names. eauto.
    - destruct (part_opened_and_deleted readZip entries parts full A O RP X name)
        as (p & _ & _ & _ & J' & _ & _ & G).
      { by apply elem_of_partFiles. }
      rewrite J in J'. injection J' as <-. rewrite <- Eu, lookup_node_top in G. congruence. }
  assert (Inner : forall name p inner,
             name ∈ map entryName entries -> is_part_name name = true ->
             read_part readZip (outer entries) name = Some (p, inner) ->
             forall e, e ∈ inner -> e ∈ parts ≫= snd).
  { intros name p inner Hn Hp R e He.
    assert (name ∈ partFiles entries) as Hin by (by apply elem_of_partFiles).
    destruct (proj1 (list_elem_of_lookup _ _) Hin) as [i Hi].
    destruct (Forall2_lookup_l _ _ _ _ _ RP Hi) as (part & Hpart & R').
    rewrite R in R'. injection R' as <-.
    apply list_elem_of_bind. exists (p, inner). split; [done|].
    by eapply list_elem_of_lookup_2. }
  split_and!.
  - by apply Gone.
  - by apply Gone.
  - destruct (hoisted u !! "Export-foo") as [n|] eqn:H; [exfalso | done].
    apply (hoisted_lookup u Clash) in H as [(F & HF & C)|(_ & _ & ?)]; [|done].
    destruct (Tidy "Export-foo") as [_ T]; [|done]. apply elem_of_children_names. eauto.
  - rewrite <- lookup_node_top. by apply (hoisted_lookup_node_in u Clash "Export-foo").
  - intros e He I W.
    assert (He' : e ∈ parts ≫= snd).
    { apply elem_of_app in He as [He|He].
      - by apply (Inner "Part-1.zip" ["Part-1.zip"] part1).
      - by apply (Inner "Part-2.zip" ["Part-2.zip"] part2). }
    pose proof (inner_entry_extracted readZip entries parts full A O RP X e He' I W) as L.
    rewrite <- Eu in L. destruct (canonical (entryName e)) as [|k rest]; [done|].
    destruct (lookup_node_Some_top _ _ _ _ L) as [n D].
    destruct (startsWith "Export-" k) eqn:S.
    + destruct rest as [|c rest].
      * exfalso. rewrite lookup_node_top in L.
        apply (export_file_blocks k schedule u (start_tasks u)).
        -- rewrite start_tasks_lookup, decide_True; [done|].
           apply elem_of_exportFolders. by rewrite L.
        -- eauto.
        -- by rewrite Run.
      * cbn [flat]. rewrite S. by apply (hoisted_lookup_node_in u Clash k).
    + assert (flat (k :: rest) = k :: rest) as ->
        by (destruct rest; cbn [flat]; by rewrite ?S).
      apply (hoisted_lookup_node_out u Clash); try done.
      intros Hc. apply NoDup_app in NC as (_ & NC & _). apply (NC k); [|done].
      apply elem_of_readdir. by rewrite D.
  - intros k [n H]. apply (hoisted_lookup u Clash) in H as [(F & HF & C)|(_ & _ & ?)]; [|done].
    apply Tidy, elem_of_children_names. eauto.
  - intros p z L. destruct p as [|k rest]; [done|].
    apply (hoisted_lookup_node_inv u Clash) in L as [[_ L]|(F & _ & L)]; rewrite Eu in L.
    + by apply (unpacked_file_names readZip entries parts full RP X _ z PN NN).
    + apply (unpacked_file_names readZip entries parts full RP X _ z PN NN) in L.
      by apply Forall_cons in L as [_ ?].
Qed.

Lemma C6_two_parts_flattened_witness :
  let entries := [entry "Part-1.zip" "part-1"; entry "Part-2.zip" "part-2-more";
                  entry "Export-foo/" ""; entry "Export-foo/notes.md" "my notes";
                  entry "sub/Part-3.zip" "part-3"] in
  let d : dir := <["notes.md" := text "my notes"]>
                   (<["more.md" := text "M"]>
                      (<["a.md" := text "A"]>
                         (<["b.md" := text "B"]>
                            (<["c.md" := text "C"]>
                               (<["img" := Dir {["logo.png" := text "L"]}]>
                                  {["sub" := Dir ∅]}))))) in
  d !! "Part-1.zip" = None /\ d !! "Part-2.zip" = None /\ d !! "Export-foo" = None /\
  d !! "notes.md" = Some (text "my notes") /\
  (forall e, e ∈ [entry "a.md" "A"; entry "img/logo.png" "L"]
                 ++ [entry "b.md" "B"; entry "Export-foo/more.md" "M"] ->
     isDirectory (entryName e) = false ->
     writers (canonical (entryName e)) (entries ++ inner_entries sample_reader entries) = [e] ->
     lookup_node (flat (canonical (entryName e))) d = Some (File (getData e))) /\
  (forall k, is_Some (d !! k) -> startsWith "Export-" k = false) /\
  (forall p z, lookup_node p d = Some (File z) -> Forall (fun c => is_part_name c = false) p).
Proof.
  intros entries d.
  apply (C6_two_parts_flattened sample_reader (String.list_byte_of_string "export")
           entries [entry "a.md" "A"; entry "img/logo.png" "L"]
           [entry "b.md" "B"; entry "Export-foo/more.md" "M"]
           (String.list_byte_of_string "my notes") [1; 0; 3]%nat
           [("Export-foo", ""); ("Export-foo", "more.md"); ("Export-foo", "notes.md");
            ("Export-foo", "")] d).
  - reflexivity.
  - apply list_elem_of_In. simpl. by left.
  - apply list_elem_of_In. simpl. right. by left.
  - vm_compute. reflexivity.
  - vm_compute. reflexivity.
  - vm_compute. reflexivity.
  - vm_compute. reflexivity.
  - vm_compute. reflexivity.
  - vm_compute. reflexivity.
  - apply (bool_decide_eq_true_1 (no_collision _)). vm_compute. reflexivity.
  - vm_compute. reflexivity.
  - vm_compute. reflexivity.
Defined.

(** C6 (as stated, refuted): when "Part-1.zip" itself holds a
    "Part-3.zip", the flattening completes and leaves that nested archive
    at the destination. *)
Lemma C6_nested_part_left_behind :
  let result := extractZip sample_reader []
                  [("Export-foo", ""); ("Export-foo", "notes.md"); ("Export-foo", "")]
                  (archive "nested") ∅ in
  result.2 = Completed /\
  result.1 !! "Part-3.zip" = Some (text "part-2") /\
  is_part_name "Part-3.zip" = true /\
  result.1 !! "notes.md" = Some (text "my notes").
Proof. vm_compute. repeat split; reflexivity. Qed.

(** An export folder inside an export folder is moved to the top and
    stays there. *)
Example wrapper_left_behind :
  extractZip sample_reader []
    [("Export-foo", ""); ("Export-foo", "Export-bar"); ("Export-foo", "")]
    (archive "wrapped") ∅
  = ({["Export-bar" := Dir {["x.md" := text "X"]}]}, Completed).
Proof. vm_compute. reflexivity. Qed.

(** adm-zip normalises the names of the entries: "x/../Part-9.zip" is
    written at the top of the destination. *)
Example dotted_name_is_normalised :
  canonical "x/../Part-9.zip" = ["Part-9.zip"] /\
  extractZip sample_reader [] [] (archive "dotted") ∅
  = ({["Part-9.zip" := text "part-2"]}, Completed).
Proof. split; vm_compute; reflexivity. Qed.

(** * Further properties of the export driver *)

Lemma backoff_lines_S r n :
  0 <= r -> backoff_lines r (S n) = LogRateLimited (2 ^ r) :: backoff_lines (r + 1) n.
Proof.
  intros Hr. unfold backoff_lines. simpl. rewrite Z.add_0_r. f_equal.
  rewrite <- fmap_S_seq, <- list_fmap_compose. apply list_fmap_ext.
  intros i x _. simpl. do 2 f_equal. lia.
Qed.

Lemma rate_limited_run taskId n rest : forall st,
  pollAttempts st < MAX_POLL_ATTEMPTS ->
  0 <= rateLimitRetries st ->
  rateLimitRetries st + Z.of_nat n <= 53 ->
  poll_loop taskId (repeat (Rejects (AxiosError (Some 429))) n ++ rest) st =
  poll_loop taskId rest
    {| pollAttempts := pollAttempts st;
       rateLimitRetries := rateLimitRetries st + Z.of_nat n;
       console := console st ++ backoff_lines (rateLimitRetries st) n;
       slept := slept st + 3 * Z.of_nat n
                + 2 ^ rateLimitRetries st * (2 ^ Z.of_nat n - 1) |}.
Proof.
  induction n as [|n IH]; intros st Hlt Hr Hn.
  - simpl. destruct st as [p r c s]. simpl. unfold backoff_lines. simpl.
    rewrite app_nil_r. do 2 f_equal; lia.
  - cbn [repeat app]. rewrite poll_loop_step by done. rewrite iteration_rate_limited.
    rewrite sleep_seconds_exact by lia.
    rewrite IH by (simpl; lia). cbn [pollAttempts rateLimitRetries console slept].
    rewrite backoff_lines_S by done. rewrite <- app_assoc. cbn [app].
    f_equal. f_equal; [lia|].
    unfold POLL_INTERVAL. rewrite Nat2Z.inj_succ.
    rewrite !Z.pow_succ_r by lia. rewrite Z.add_1_r, Z.pow_succ_r by lia. ring.
Qed.

(** X1: rate-limited replies in a row cost no attempt.  After [n] of
    them, the first met with [rateLimitRetries = r], the loop has printed
    the backoffs 2^r, 2^(r+1), ..., has asked [sleep] for 3n + 2^r (2^n - 1)
    seconds in all, and is waiting for the next reply with [pollAttempts]
    as it was and [rateLimitRetries = r + n]; it goes on from that state
    with whatever reply comes next.  (Up to [r + n = 22] every delay,
    (3 + 2^k) * 1000 ms with k <= 21, is within the range of [setTimeout].) *)
Theorem X1_rate_limit_backoff (taskId : string) (n : nat) (rest : list reply)
    (st : poll_state) :
  pollAttempts st < MAX_POLL_ATTEMPTS ->
  0 <= rateLimitRetries st ->
  rateLimitRetries st + Z.of_nat n <= 22 ->
  let st' :=
    {| pollAttempts := pollAttempts st;
       rateLimitRetries := rateLimitRetries st + Z.of_nat n;
       console := console st ++ backoff_lines (rateLimitRetries st) n;
       slept := slept st + 3 * Z.of_nat n
                + 2 ^ rateLimitRetries st * (2 ^ Z.of_nat n - 1) |} in
  poll_loop taskId (repeat (Rejects (AxiosError (Some 429))) n) st = (st', Awaiting) /\
  poll_loop taskId (repeat (Rejects (AxiosError (Some 429))) n ++ rest) st =
  poll_loop taskId rest st'.
Proof.
  intros Hlt Hr Hn. cbv zeta. split.
  - rewrite <- (app_nil_r (repeat _ n)). rewrite rate_limited_run by lia.
    rewrite poll_loop_no_reply. cbn [pollAttempts].
    apply Z.ltb_lt in Hlt. by rewrite Hlt.
  - apply rate_limited_run; lia.
Qed.

Lemma X1_rate_limit_backoff_witness :
  let st' := {| pollAttempts := 0; rateLimitRetries := 3;
                console := [LogRateLimited 1; LogRateLimited 2; LogRateLimited 4];
                slept := 16 |} in
  poll_loop "T" (repeat (Rejects (AxiosError (Some 429))) 3) initial_state = (st', Awaiting) /\
  poll_loop "T" (repeat (Rejects (AxiosError (Some 429))) 3 ++ [succeeded]) initial_state =
  poll_loop "T" [succeeded] st'.
Proof.
  apply (X1_rate_limit_backoff "T" 3 [succeeded] initial_state).
  - reflexivity.
  - vm_compute. discriminate.
  - vm_compute. discriminate.
Defined.

(** The [try] block leaves [pollAttempts] and the time slept alone, and
    what it throws is never an axios error. *)
Lemma try_block_counters taskId r st :
  pollAttempts (try_block taskId r st).1 = pollAttempts st /\
  slept (try_block taskId r st).1 = slept st /\
  (rateLimitRetries (try_block taskId r st).1 = rateLimitRetries st \/
   rateLimitRetries (try_block taskId r st).1 = 0) /\
  forall e, (try_block taskId r st).2 = Throw e -> catch_block e = fun st => (st, Throw e).
Proof.
  unfold try_block. cbv zeta.
  repeat case_match; simpl; split_and!; auto; intros e [= <-]; reflexivity.
Qed.

(** What one pass through the loop body does to the counters, whatever
    the reply is. *)
Lemma iteration_counters taskId rp st :
  let st' := (iteration taskId rp st).1 in
  slept st' = slept st + binary64 (POLL_INTERVAL + 2 ^ rateLimitRetries st) /\
  ((pollAttempts st' = pollAttempts st + 1 /\
    (rateLimitRetries st' = rateLimitRetries st \/ rateLimitRetries st' = 0)) \/
   (pollAttempts st' = pollAttempts st /\
    rateLimitRetries st' = rateLimitRetries st + 1)).
Proof.
  destruct rp as [r|e].
  - unfold iteration. cbv zeta.
    set (st1 := sleep _ (set_pollAttempts _ st)).
    destruct (try_block_counters taskId r st1) as (P & S & R & T).
    destruct (try_block taskId r st1) as [st2 ctl]. simpl in P, S, R, T.
    assert (pollAttempts st2 = pollAttempts st + 1 /\
            slept st2 = slept st + binary64 (POLL_INTERVAL + 2 ^ rateLimitRetries st) /\
            (rateLimitRetries st2 = rateLimitRetries st \/ rateLimitRetries st2 = 0))
      as (? & ? & ?) by (rewrite P, S; simpl; auto).
    destruct ctl as [| |e]; simpl; [by auto..|].
    rewrite (T e eq_refl). simpl. by auto.
  - unfold iteration, catch_block.
    destruct e as [[code|]| | |]; simpl; try (split; [done | left; by auto]).
    destruct (decide (code = 429)) as [->|Hne].
    + simpl. split; [done|]. right. split; [lia | done].
    + destruct code as [|p|p]; simpl; try (split; [done | left; by auto]).
      repeat (destruct p as [p|p|]; simpl; try (split; [done | left; by auto])).
Qed.

Lemma poll_loop_counters taskId replies : forall st,
  0 <= pollAttempts st <= MAX_POLL_ATTEMPTS ->
  0 <= rateLimitRetries st ->
  4 * pollAttempts st <= slept st ->
  let st' := (poll_loop taskId replies st).1 in
  0 <= pollAttempts st' <= MAX_POLL_ATTEMPTS /\
  0 <= rateLimitRetries st' /\
  4 * pollAttempts st' <= slept st'.
Proof.
  induction replies as [|rp rest IH]; intros st Hp Hr Hs; simpl.
  - destruct (pollAttempts st <? MAX_POLL_ATTEMPTS); simpl; done.
  - destruct (pollAttempts st <? MAX_POLL_ATTEMPTS) eqn:G; [|simpl; done].
    apply Z.ltb_lt in G.
    destruct (iteration_counters taskId rp st) as (S & C).
    pose proof (sleep_seconds_ge (rateLimitRetries st) Hr).
    destruct (iteration taskId rp st) as [st1 ctl]. simpl in S, C.
    assert (0 <= pollAttempts st1 <= MAX_POLL_ATTEMPTS /\ 0 <= rateLimitRetries st1 /\
            4 * pollAttempts st1 <= slept st1) as (? & ? & ?) by lia.
    destruct ctl; simpl; auto.
Qed.

(** X2: through every run of the polling loop, [pollAttempts] stays
    between 0 and the ceiling, [rateLimitRetries] stays non-negative, and
    the loop has slept at least 4 seconds for each attempt counted; a run
    that exhausts the 100 attempts has slept at least 400 seconds. *)
Theorem X2_polling_counters_bounded (taskId : string) (replies : list reply) :
  let st := (poll_loop taskId replies initial_state).1 in
  0 <= pollAttempts st <= MAX_POLL_ATTEMPTS /\
  0 <= rateLimitRetries st /\
  4 * pollAttempts st <= slept st.
Proof. apply poll_loop_counters; simpl; unfold MAX_POLL_ATTEMPTS; lia. Qed.

(** X3: a rejection of the status request that is no rate limit (another
    HTTP status, a network error, any other exception) ends the polling at
    once with that same error: nothing but a 429 is retried. *)
Theorem X3_other_rejections_propagate (taskId : string) (e : exn) (rest : list reply)
    (st : poll_state) :
  pollAttempts st < MAX_POLL_ATTEMPTS ->
  is_rate_limited (Rejects e) = false ->
  (poll_loop taskId (Rejects e :: rest) st).2 = PollThrew e.
Proof.
  intros Hlt N. rewrite poll_loop_step by done. unfold iteration, catch_block.
  destruct e as [[code|]| | |]; try reflexivity.
  destruct code as [|p|p]; try reflexivity.
  repeat (destruct p as [p|p|]; try reflexivity). discriminate.
Qed.

Lemma X3_other_rejections_propagate_witness :
  (poll_loop "T" [Rejects (AxiosError (Some 503)); succeeded] initial_state).2
  = PollThrew (AxiosError (Some 503)).
Proof.
  apply (X3_other_rejections_propagate "T" (AxiosError (Some 503)) [succeeded] initial_state).
  - reflexivity.
  - reflexivity.
Defined.

Lemma includes_spec needle hay :
  includes needle hay = true <-> exists pre post, hay = pre +:+ needle +:+ post.
Proof.
  induction hay as [|c hay IH].
  - cbn [includes]. rewrite orb_false_r, prefix_spec. split.
    + intros [rest E]. by exists "", rest.
    + intros (pre & post & E). destruct pre; [|discriminate]. eauto.
  - cbn [includes]. rewrite orb_true_iff, prefix_spec, IH. split.
    + intros [[rest E]|(pre & post & E)].
      * by exists "", rest.
      * exists (String c pre), post. simpl. by rewrite E.
    + intros (pre & post & E). destruct pre as [|c' pre].
      * left. by exists post.
      * right. simpl in E. injection E as -> E. eauto.
Qed.

Lemma try_block_break taskId r st url cookie :
  (try_block taskId r st).2 = Break url cookie ->
  exists task s cookies,
    finds taskId r = Some task /\ truthy_string (error task) = false /\
    state task = "success" /\ status task = Some s /\
    exportURL s = Some url /\ url <> "" /\
    set_cookie r = Some cookies /\
    find (includes "file_token=") cookies = Some cookie.
Proof.
  unfold try_block, finds.
  destruct (find _ (results r)) as [task|] eqn:F; [|discriminate]. cbv zeta.
  destruct (truthy_string (error task)) eqn:E; [discriminate|].
  destruct (String.eqb_spec (state task) "success") as [S|]; [|discriminate].
  destruct (status task) as [s|] eqn:HS; [|discriminate].
  destruct (truthy_string (exportURL s)) eqn:U; [|discriminate].
  destruct (set_cookie r) as [cookies|] eqn:C; [|discriminate].
  destruct (find (includes "file_token=") cookies) as [ck|] eqn:HF; [|discriminate].
  destruct (truthy_string (Some ck)); [|discriminate]. simpl. intros [= <- <-].
  destruct (exportURL s) as [u|] eqn:HU; [|discriminate].
  exists task, s, cookies. split_and!; try done. by apply truthy_string_Some.
Qed.

Lemma iteration_break taskId rp st st' url cookie :
  iteration taskId rp st = (st', Break url cookie) ->
  exists r, rp = Resolves r /\
            (try_block taskId r
               (sleep (binary64 (POLL_INTERVAL + 2 ^ rateLimitRetries st))
                  (set_pollAttempts (pollAttempts st + 1) st))).2 = Break url cookie.
Proof.
  unfold iteration. cbv zeta. destruct rp as [r|e].
  - set (st1 := sleep _ _).
    pose proof (try_block_counters taskId r st1) as (_ & _ & _ & T).
    destruct (try_block taskId r st1) as [st2 [| |e]] eqn:TB; simpl in *.
    + discriminate.
    + intros [= <- <- <-]. exists r. by rewrite TB.
    + rewrite (T e eq_refl). discriminate.
  - unfold catch_block. repeat case_match; discriminate.
Qed.

Lemma poll_loop_proceeds taskId replies : forall st0 st u c,
  poll_loop taskId replies st0 = (st, Proceeds u c) ->
  exists r task s url cookies cookie,
    Resolves r ∈ replies /\ finds taskId r = Some task /\
    state task = "success" /\ status task = Some s /\
    exportURL s = Some url /\ url <> "" /\
    set_cookie r = Some cookies /\ cookie ∈ cookies /\
    includes "file_token=" cookie = true /\
    u = Some url /\ c = Some cookie.
Proof.
  induction replies as [|rp rest IH]; intros st0 st u c; simpl.
  - unfold timeout_check. destruct (pollAttempts st0 <? MAX_POLL_ATTEMPTS) eqn:G;
      [discriminate|]. apply Z.ltb_ge in G. apply Z.leb_le in G. by rewrite G.
  - unfold timeout_check. destruct (pollAttempts st0 <? MAX_POLL_ATTEMPTS) eqn:G.
    + destruct (iteration taskId rp st0) as [st1 [|url cookie|e]] eqn:I.
      * intros H. destruct (IH _ _ _ _ H) as (r & task & s & url & cookies & cookie & M & R).
        exists r, task, s, url, cookies, cookie. split; [by right | done].
      * destruct (MAX_POLL_ATTEMPTS <=? pollAttempts st1); [discriminate|].
        intros [= <- <- <-].
        apply iteration_break in I as (r & -> & B).
        apply try_block_break in B as (task & s & cookies & F & E & S & HS & HU & NU & C & HF).
        apply find_some in HF as [Inc Mem].
        exists r, task, s, url, cookies, cookie. split_and!; try done. left.
      * discriminate.
    + apply Z.ltb_ge in G. apply Z.leb_le in G. rewrite G. discriminate.
Qed.

(** X4: the polling never hands an undefined or empty URL, or a missing
    cookie, to the download: when it goes on to the download, the URL is
    the non-empty [exportURL] of the task's record in one of the replies,
    that record reports "success", and the cookie is one of the set-cookie
    entries of that same reply and contains "file_token=". *)
Theorem X4_download_gets_url_and_token (taskId : string) (replies : list reply)
    (st : poll_state) (u c : option string) :
  poll_loop taskId replies initial_state = (st, Proceeds u c) ->
  exists r task s url cookies cookie pre post,
    Resolves r ∈ replies /\
    find (fun t => String.eqb (id t) taskId) (results r) = Some task /\
    state task = "success" /\ status task = Some s /\
    exportURL s = Some url /\ url <> "" /\
    set_cookie r = Some cookies /\ cookie ∈ cookies /\
    cookie = pre +:+ "file_token=" +:+ post /\
    u = Some url /\ c = Some cookie.
Proof.
  intros H. apply poll_loop_proceeds in H
    as (r & task & s & url & cookies & cookie & M & F & S & HS & HU & NU & C & Mem & Inc & -> & ->).
  apply includes_spec in Inc as (pre & post & ->).
  exists r, task, s, url, cookies, (pre +:+ "file_token=" +:+ post), pre, post.
  split_and!; done.
Qed.

Lemma X4_download_gets_url_and_token_witness :
  exists r task s url cookies cookie pre post,
    Resolves r ∈ [not_found; succeeded] /\
    find (fun t => String.eqb (id t) "T") (results r) = Some task /\
    state task = "success" /\ status task = Some s /\
    exportURL s = Some url /\ url <> "" /\
    set_cookie r = Some cookies /\ cookie ∈ cookies /\
    cookie = pre +:+ "file_token=" +:+ post /\
    Some "https://files.example/export.zip" = Some url /\
    Some "file_token=abc; Path=/" = Some cookie.
Proof.
  apply (X4_download_gets_url_and_token "T" [not_found; succeeded]
           (poll_loop "T" [not_found; succeeded] initial_state).1
           (Some "https://files.example/export.zip") (Some "file_token=abc; Path=/")).
  vm_compute. reflexivity.
Defined.

Lemma logged_state_eq task st :
  logged_state task st =
  {| pollAttempts := pollAttempts st + 1;
     rateLimitRetries := rateLimitRetries st;
     console := console st ++ LogTaskState (pollAttempts st + 1) MAX_POLL_ATTEMPTS (state task)
                             :: progress_lines task;
     slept := slept st + binary64 (POLL_INTERVAL + 2 ^ rateLimitRetries st) |}.
Proof.
  unfold logged_state, progress_lines. cbv zeta.
  destruct (status task) as [s|]; [destruct (truthy_number (pagesExported s))|];
    unfold log, sleep, set_pollAttempts; simpl; by rewrite <- ?app_assoc.
Qed.

(** X5: a record of the task without error field whose state is anything
    but "success" ("in_progress", but "failure" or an unknown state just as
    well) does not end the polling: the pass through the loop body prints
    the state (and the progress, if any), counts the attempt, puts
    [rateLimitRetries] back to 0 and ends without an exception; the loop
    goes on with the next reply from that state, and when no further reply
    has come it is waiting for one (or, the ceiling reached, throws the
    timeout error). *)
Theorem X5_other_states_keep_polling (taskId : string) (r : TasksResponse)
    (rest : list reply) (st : poll_state) (task : NotionTask) :
  pollAttempts st < MAX_POLL_ATTEMPTS ->
  0 <= rateLimitRetries st <= 52 ->
  find (fun t => String.eqb (id t) taskId) (results r) = Some task ->
  truthy_string (error task) = false ->
  state task <> "success" ->
  let st' :=
    {| pollAttempts := pollAttempts st + 1;
       rateLimitRetries := 0;
       console := console st ++ LogTaskState (pollAttempts st + 1) MAX_POLL_ATTEMPTS (state task)
                               :: progress_lines task;
       slept := slept st + (POLL_INTERVAL + 2 ^ rateLimitRetries st) |} in
  iteration taskId (Resolves r) st = (st', Continue) /\
  poll_loop taskId [Resolves r] st =
    (st', if pollAttempts st + 1 <? MAX_POLL_ATTEMPTS then Awaiting
          else PollThrew (Error timeout_message)) /\
  poll_loop taskId (Resolves r :: rest) st = poll_loop taskId rest st'.
Proof.
  intros Hlt Hr F E S. cbv zeta.
  pose proof (iteration_in_progress taskId r st task F E) as I.
  rewrite logged_state_eq, sleep_seconds_exact in I by done.
  specialize (I (proj2 (String.eqb_neq _ _) S)).
  split_and!.
  - done.
  - rewrite poll_loop_step by done. rewrite I. by rewrite poll_loop_no_reply.
  - rewrite poll_loop_step by done. by rewrite I.
Qed.

Lemma X5_other_states_keep_polling_witness :
  let st' := {| pollAttempts := 8; rateLimitRetries := 0;
                console := [LogTaskState 8 100 "failure"]; slept := 47 |} in
  let failure := Resolves {| results := [ {| id := "T"; state := "failure"; status := None;
                                             error := None |} ];
                             set_cookie := None |} in
  let st := {| pollAttempts := 7; rateLimitRetries := 2; console := []; slept := 40 |} in
  iteration "T" failure st = (st', Continue) /\
  poll_loop "T" [failure] st = (st', Awaiting) /\
  poll_loop "T" [failure; succeeded] st = poll_loop "T" [succeeded] st'.
Proof.
  apply (X5_other_states_keep_polling "T"
           {| results := [ {| id := "T"; state := "failure"; status := None;
                              error := None |} ];
              set_cookie := None |}
           [succeeded]
           {| pollAttempts := 7; rateLimitRetries := 2; console := []; slept := 40 |}
           {| id := "T"; state := "failure"; status := None; error := None |}).
  - reflexivity.
  - vm_compute. split; discriminate.
  - reflexivity.
  - reflexivity.
  - discriminate.
Defined.

(** * Further properties of the archive normaliser *)

(** X6: when no two moves collide and every entry whose name starts with
    "Export-" is a directory, the flattening completes when the callbacks
    run one after the other: every [readdir], [rename] and [rmdir]
    succeeds. *)
Theorem X6_flatten_completes (d : dir) :
  no_collision d ->
  forallb (is_dir d) (exportFolders d) = true ->
  (run_tasks (sequential_schedule d) d (start_tasks d)).2 = Completed.
Proof.
  intros Free Dirs. rewrite flatten_completes; [done | done |].
  intros F HF. rewrite forallb_forall in Dirs.
  specialize (Dirs F (proj1 (list_elem_of_In _ _) HF)). unfold is_dir in Dirs.
  destruct (d !! F) as [[?|ch]|]; try discriminate. eauto.
Qed.

Lemma X6_flatten_completes_witness :
  (run_tasks
     (sequential_schedule (<["Export-a" := Dir {["x.md" := text "X"]}]>
                             (<["Export-b" := Dir ∅]> {["readme.md" := text "R"]})))
     (<["Export-a" := Dir {["x.md" := text "X"]}]>
        (<["Export-b" := Dir ∅]> {["readme.md" := text "R"]}))
     (start_tasks (<["Export-a" := Dir {["x.md" := text "X"]}]>
                     (<["Export-b" := Dir ∅]> {["readme.md" := text "R"]})))).2
  = Completed.
Proof.
  apply (X6_flatten_completes
           (<["Export-a" := Dir {["x.md" := text "X"]}]>
              (<["Export-b" := Dir ∅]> {["readme.md" := text "R"]}))).
  - apply (bool_decide_eq_true_1 (no_collision _)). vm_compute. reflexivity.
  - vm_compute. reflexivity.
Defined.

(** X7: a flattening without collisions that completes neither loses nor
    invents an entry: the destination then holds exactly the entries it
    had under names that do not start with "Export-", unchanged, and the
    children of the directories whose name starts with "Export-". *)
Theorem X7_flatten_keeps_entries (d d' : dir) (schedule : list (string * string))
    (k : string) (n : node) :
  no_collision d ->
  run_tasks schedule d (start_tasks d) = (d', Completed) ->
  d' !! k = Some n <->
  (d !! k = Some n /\ startsWith "Export-" k = false) \/
  (exists F ch, startsWith "Export-" F = true /\ d !! F = Some (Dir ch) /\ ch !! k = Some n).
Proof.
  intros Free Run. pose proof (no_collision_no_clash d Free) as Clash.
  apply (flatten_completed d Clash) in Run. subst d'.
  unfold hoisted. split.
  - intros [U|[U Fi]]%lookup_union_Some_raw.
    + right. apply lookup_union_list_Some in U as (m & [F [-> HF]]%list_elem_of_fmap & C).
      apply elem_of_exportFolders in HF as [_ S]. unfold children_of in C.
      destruct (d !! F) as [[?|ch]|] eqn:D; try by rewrite lookup_empty in C.
      by exists F, ch.
    + left. by apply map_lookup_filter_Some in Fi.
  - intros [[D S]|(F & ch & S & D & C)].
    + assert (U : union_list (children_of d <$> exportFolders d) !! k = None).
      { destruct (union_list _ !! k) as [n'|] eqn:U; [exfalso | done].
        apply lookup_union_list_Some in U as (m & [F [-> HF]]%list_elem_of_fmap & C).
        rewrite (child_not_top d F k Free HF) in D by (by eexists). discriminate. }
      rewrite lookup_union_r by done. by apply map_lookup_filter_Some.
    + assert (HF : F ∈ exportFolders d) by (apply elem_of_exportFolders; by rewrite D).
      pose proof (children_of_Dir _ _ _ D) as CH.
      destruct (union_list (children_of d <$> exportFolders d) !! k) as [n'|] eqn:U.
      * rewrite (lookup_union_Some_l _ _ _ _ U).
        apply lookup_union_list_Some in U as (m & [F' [-> HF']]%list_elem_of_fmap & C').
        assert (F' = F) as ->.
        { apply (child_one_owner d Clash F' F k); try done.
          all: try (by eexists). rewrite CH. by eexists. }
        congruence.
      * exfalso. assert (children_of d F !! k = None) as N.
        { eapply lookup_union_list_None; [done|]. apply list_elem_of_fmap. eauto. }
        rewrite CH in N. congruence.
Qed.

Lemma X7_flatten_keeps_entries_witness :
  (run_tasks [("Export-a", ""); ("Export-a", "x.md"); ("Export-a", "")]
     (<["Export-a" := Dir {["x.md" := text "X"]}]> {["readme.md" := text "R"]})
     (start_tasks (<["Export-a" := Dir {["x.md" := text "X"]}]>
                     {["readme.md" := text "R"]}))).1 !! "x.md" = Some (text "X")
  <->
  ((<["Export-a" := Dir {["x.md" := text "X"]}]> {["readme.md" := text "R"]} : dir) !! "x.md"
     = Some (text "X") /\ startsWith "Export-" "x.md" = false) \/
  (exists F ch, startsWith "Export-" F = true /\
                (<["Export-a" := Dir {["x.md" := text "X"]}]> {["readme.md" := text "R"]} : dir)
                  !! F = Some (Dir ch) /\ ch !! "x.md" = Some (text "X")).
Proof.
  apply (X7_flatten_keeps_entries
           (<["Export-a" := Dir {["x.md" := text "X"]}]> {["readme.md" := text "R"]})
           _ [("Export-a", ""); ("Export-a", "x.md"); ("Export-a", "")]).
  - apply (bool_decide_eq_true_1 (no_collision _)). vm_compute. reflexivity.
  - vm_compute. reflexivity.
Defined.

(** X8: export folders are chosen by name alone: a plain file at the top
    of the destination whose name starts with "Export-" keeps the
    flattening from completing, in whatever order the file-system calls
    complete (its [readdir] fails with ENOTDIR). *)
Theorem X8_export_named_file_blocks (d : dir) (F : string) (data : bytes)
    (schedule : list (string * string)) :
  d !! F = Some (File data) ->
  startsWith "Export-" F = true ->
  (run_tasks schedule d (start_tasks d)).2 <> Completed /\
  (run_tasks ((F, "") :: schedule) d (start_tasks d)).2 = Failed (SystemError "ENOTDIR").
Proof.
  intros D S.
  assert (T : start_tasks d !! F = Some Reading).
  { rewrite start_tasks_lookup, decide_True; [done|].
    apply elem_of_exportFolders. by rewrite D. }
  split; [apply (export_file_blocks F); eauto|].
  cbn [run_tasks].
  assert (A : all_removed (start_tasks d) = false)
    by (apply bool_decide_eq_false; intros H; by specialize (H F _ T)).
  rewrite A. unfold step_task. by rewrite T, D.
Qed.

Lemma X8_export_named_file_blocks_witness :
  (run_tasks [("Export-a", ""); ("Export-log.txt", ""); ("Export-a", "")]
     (<["Export-log.txt" := text "log"]> {["Export-a" := Dir ∅]})
     (start_tasks (<["Export-log.txt" := text "log"]> {["Export-a" := Dir ∅]}))).2
  <> Completed /\
  (run_tasks (("Export-log.txt", "") :: [("Export-a", ""); ("Export-log.txt", ""); ("Export-a", "")])
     (<["Export-log.txt" := text "log"]> {["Export-a" := Dir ∅]})
     (start_tasks (<["Export-log.txt" := text "log"]> {["Export-a" := Dir ∅]}))).2
  = Failed (SystemError "ENOTDIR").
Proof.
  apply (X8_export_named_file_blocks
           (<["Export-log.txt" := text "log"]> {["Export-a" := Dir ∅]})
           "Export-log.txt" (String.list_byte_of_string "log")).
  - reflexivity.
  - reflexivity.
Defined.
(** * [run] *)

Lemma pipe_resolved events : forall written file,
  pipe events written = (file, Resolved) -> exists b, file = Some b.
Proof.
  induction events as [|[chunk| |e|e|e] events IH]; intros written file; simpl;
    try (intros [= <-]; by eauto); try done.
  apply IH.
Qed.

Lemma exportFromNotion_completed net st written :
  exportFromNotion net = (st, written, Completed) -> exists b, written = Some b.
Proof.
  unfold exportFromNotion.
  destruct (enqueueTask net) as [e|taskId]; [done|].
  destruct (poll_loop taskId (getTasks net) initial_state) as [st' [url cookie|e|]]; try done.
  destruct (getExport net url cookie) as [e|response]; [done|].
  destruct (pipe (body response) []) as [file [|e|]] eqn:P; try done.
  intros [= _ <-]. by eapply pipe_resolved.
Qed.

(** X13: a run that completes leaves a destination that owes nothing to
    what was there before: started from any other content of the
    directory and of "workspace.zip", the same run ends in the same state,
    with the downloaded archive deleted and the directory in place. *)
Theorem X13_run_replaces_destination (readZip : bytes -> option (list ZipEntry))
    (net : Network) (delays : list nat) (schedule : list (string * string))
    (fs1 fs2 fs' : FileSystem) :
  run readZip net delays schedule fs1 = (fs', Completed) ->
  run readZip net delays schedule fs2 = (fs', Completed) /\
  workspaceZip fs' = None /\
  exists d, workspaceDir fs' = Some (Dir d).
Proof.
  unfold run. destruct (exportFromNotion net) as [[st written] c] eqn:E.
  destruct c; try (intros [= _ ?]; discriminate).
  destruct (exportFromNotion_completed _ _ _ E) as [b ->].
  destruct (extractZip readZip delays schedule (Some b) ∅) as [d c].
  destruct c; intros [= <-]; try discriminate. split_and!; eauto.
Qed.

Lemma X13_run_replaces_destination_witness :
  run sample_reader (serving "part-1") [] []
    {| workspaceDir := None; workspaceZip := Some (String.list_byte_of_string "stale") |}
  = ({| workspaceDir :=
          Some (Dir (<["img" := Dir {["logo.png" := text "L"]}]> {["a.md" := text "A"]}));
        workspaceZip := None |}, Completed) /\
  workspaceZip
    {| workspaceDir :=
         Some (Dir (<["img" := Dir {["logo.png" := text "L"]}]> {["a.md" := text "A"]}));
       workspaceZip := None |} = None /\
  exists d,
    workspaceDir
      {| workspaceDir :=
           Some (Dir (<["img" := Dir {["logo.png" := text "L"]}]> {["a.md" := text "A"]}));
         workspaceZip := None |} = Some (Dir d).
Proof.
  apply (X13_run_replaces_destination sample_reader (serving "part-1") [] []
           {| workspaceDir := Some (Dir {["old.md" := text "kept"]}); workspaceZip := None |}).
  vm_compute. reflexivity.
Defined.

